(** * River crossing: the missionaries-and-cannibals A* solver

    A shallow embedding of [missionary_cannibal_a_star.py] and of the
    request handler of [app.py], with the properties of the search that
    the specification states.

    Conventions of the embedding.
    - Python integers are [Z]; a puzzle state is the 5-tuple
      [(M_left, C_left, M_right, C_right, boat_pos)] with [boat_pos] a
      string, exactly as the source builds it.
    - The dictionaries [g_cost] and [parent] are [gmap]s keyed by states,
      the set [visited] is a [gset].
    - [open_heap] is the list of pending [(f, g, state)] entries in the
      order in which they were pushed; [heappop] removes the least entry
      for Python's tuple order.  That order is total and two entries that
      compare equal are the same tuple, so the entry a binary heap returns
      is determined by the contents alone.
    - The two [while] loops take fuel; running out of it is the outcome
      [OutOfFuel], a missing dictionary key is the outcome [KeyError].
    - [people_left / 2.0] converts the integer to a double: the nearest
      one, ties to even, which is the integer itself up to [2^53] in
      magnitude, and the outcome [OverflowError] beyond the range of the
      doubles.  A double of integer value is given as a [Z]; halving it
      is exact and [math.ceil] returns the integer ceiling. *)

From Stdlib Require Import ZArith Lia String Ascii OrderedTypeEx.
From Stdlib Require Import DecimalString DecimalNat DecimalFacts.
From stdpp Require Import gmap strings list fin_maps fin_sets.

Local Open Scope string_scope.
Local Open Scope list_scope.
Local Open Scope Z_scope.

(** ** States *)

Abbreviation state := (Z * Z * Z * Z * string)%type.

(** ** Outcomes of a run *)

Inductive outcome (A : Type) : Type :=
| Ret (a : A)
| KeyError
| OverflowError
| OutOfFuel.
Arguments Ret {A} a.
Arguments KeyError {A}.
Arguments OverflowError {A}.
Arguments OutOfFuel {A}.

Global Instance outcome_ret : MRet outcome := fun A a => Ret a.
Global Instance outcome_bind : MBind outcome := fun A B k m =>
  match m with
  | Ret a => k a
  | KeyError => KeyError
  | OverflowError => OverflowError
  | OutOfFuel => OutOfFuel
  end.

(** ** [is_valid_state] *)

Definition is_valid_state (M_left C_left M_right C_right M_total C_total : Z) : bool :=
  if (M_left <? 0) || (C_left <? 0) || (M_right <? 0) || (C_right <? 0) then false
  else if (M_left >? M_total) || (C_left >? C_total)
          || (M_right >? M_total) || (C_right >? C_total) then false
  else if (M_left >? 0) && (C_left >? M_left) then false
  else if (M_right >? 0) && (C_right >? M_right) then false
  else true.

(** ** [get_possible_moves] *)

(** Python's [range(n)] for an integer [n]: empty when [n <= 0]. *)
Definition range (n : Z) : list Z := seqZ 0 n.

Definition get_possible_moves (boat_capacity : Z) : list (Z * Z) :=
  i ← range (boat_capacity + 1);
  j ← range (boat_capacity + 1);
  if (i + j <=? boat_capacity) && (i + j >? 0) then [(i, j)] else [].

(** ** [get_next_states] *)

Definition get_next_states (s : state) (M_total C_total boat_capacity : Z) : list state :=
  let '(M_left, C_left, M_right, C_right, boat_pos) := s in
  let possible_moves := get_possible_moves boat_capacity in
  if String.eqb boat_pos "left" then
    '(M_move, C_move) ← possible_moves;
    let new_M_left := M_left - M_move in
    let new_C_left := C_left - C_move in
    let new_M_right := M_right + M_move in
    let new_C_right := C_right + C_move in
    if is_valid_state new_M_left new_C_left new_M_right new_C_right M_total C_total
    then [(new_M_left, new_C_left, new_M_right, new_C_right, "right")]
    else []
  else (* boat is on the right *)
    '(M_move, C_move) ← possible_moves;
    let new_M_left := M_left + M_move in
    let new_C_left := C_left + C_move in
    let new_M_right := M_right - M_move in
    let new_C_right := C_right - C_move in
    if is_valid_state new_M_left new_C_left new_M_right new_C_right M_total C_total
    then [(new_M_left, new_C_left, new_M_right, new_C_right, "left")]
    else [].

(** ** [heuristic] *)

(** The double nearest to the integer [n], a tie going to the even
    significand of 53 bits.  An integer of at most 53 bits is a double;
    a longer one loses its [e] low bits, [e] being its bit length less
    53, and the result is a multiple of [2^e]. *)
Definition round_to_double (n : Z) : Z :=
  let e := Z.log2 (Z.abs n) - 52 in
  if e <=? 0 then n
  else
    let q := Z.abs n / 2 ^ e in
    let r := Z.abs n mod 2 ^ e in
    let half := 2 ^ (e - 1) in
    let q' := if (half <? r) || ((r =? half) && Z.odd q) then q + 1 else q in
    Z.sgn n * (q' * 2 ^ e).

(** The doubles are below [2^1024] in magnitude. *)
Definition float_limit : Z := 2 ^ 1024.

(** The conversion of the integer [n] to a float, as the division
    [n / 2.0] performs it; Python raises [OverflowError] when the nearest
    double would be [2^1024] or more in magnitude. *)
Definition float_of_int (n : Z) : outcome Z :=
  let x := round_to_double n in
  if Z.abs x <? float_limit then Ret x else OverflowError.

(** [math.ceil(x / 2.0)] for a float [x] of integer value: the quotient
    is exact, and its ceiling is an integer. *)
Definition ceil_half (x : Z) : Z := - ((- x) / 2).

Definition heuristic (s : state) (M_total C_total : Z) : outcome Z :=
  let '(M_left, C_left, M_right, C_right, boat_pos) := s in
  let people_left := M_left + C_left in
  x ← float_of_int people_left;
  Ret (ceil_half x).

(** ** The frontier: [heapq] on [(f, g, state)] tuples *)

Abbreviation entry := (Z * Z * state)%type.

(** Python compares tuples lexicographically, integers numerically and
    strings by code points.  A tuple is a nested pair here, and the
    lexicographic order of nested pairs is that of the flat tuple. *)
Definition lex (c k : comparison) : comparison :=
  match c with Eq => k | _ => c end.

Definition pair_compare {A B : Type} (cmpA : A -> A -> comparison)
    (cmpB : B -> B -> comparison) (x y : A * B) : comparison :=
  lex (cmpA x.1 y.1) (cmpB x.2 y.2).

Definition state_compare : state -> state -> comparison :=
  pair_compare
    (pair_compare (pair_compare (pair_compare Z.compare Z.compare) Z.compare) Z.compare)
    String.compare.

Definition entry_compare : entry -> entry -> comparison :=
  pair_compare (pair_compare Z.compare Z.compare) state_compare.

Definition entry_ltb (x y : entry) : bool :=
  match entry_compare x y with Lt => true | _ => false end.

Definition entry_le (x y : entry) : Prop := entry_compare x y <> Gt.

(** [heapq.heappush(heap, item)]. *)
Definition heappush (heap : list entry) (item : entry) : list entry := heap ++ [item].

(** The least entry of [e :: heap]. *)
Fixpoint heap_min (e : entry) (heap : list entry) : entry :=
  match heap with
  | [] => e
  | x :: heap' => heap_min (if entry_ltb x e then x else e) heap'
  end.

(** Removal of one occurrence of [e]. *)
Fixpoint remove_one (e : entry) (heap : list entry) : list entry :=
  match heap with
  | [] => []
  | x :: heap' => if decide (x = e) then heap' else x :: remove_one e heap'
  end.

(** [heapq.heappop(heap)]: the least entry and the remaining heap; [None]
    on the empty heap, which the search never pops. *)
Definition heappop (heap : list entry) : option (entry * list entry) :=
  match heap with
  | [] => None
  | e :: heap' => let m := heap_min e heap' in Some (m, remove_one m heap)
  end.

(** ** [astar_search] *)

Record search_state : Type := SearchState {
  open_heap : list entry;
  g_cost : gmap state Z;
  parent : gmap state (option state);
  visited : gset state;
  num_generated : Z
}.

(** The body of [for nxt in get_next_states(...)]; an exception raised
    by [heuristic] leaves the search. *)
Definition relax (M_total C_total : Z) (g : Z) (current : state)
    (st : search_state) (nxt : state) : outcome search_state :=
  let tentative_g := g + 1 in
  if match g_cost st !! nxt with
     | None => true
     | Some c => tentative_g <? c
     end
  then
    h ← heuristic nxt M_total C_total;
    let f := tentative_g + h in
    Ret {| open_heap := heappush (open_heap st) (f, tentative_g, nxt);
           g_cost := <[nxt := tentative_g]> (g_cost st);
           parent := <[nxt := Some current]> (parent st);
           visited := visited st;
           num_generated := num_generated st + 1 |}
  else Ret st.

(** [for x in l: body], the state threaded through the iterations up to
    the first exception. *)
Fixpoint for_each {A S : Type} (body : S -> A -> outcome S) (l : list A) (st : S)
    : outcome S :=
  match l with
  | [] => Ret st
  | x :: l' => st' ← body st x; for_each body l' st'
  end.

Definition expand (M_total C_total boat_capacity : Z) (g : Z) (current : state)
    (st : search_state) : outcome search_state :=
  for_each (relax M_total C_total g current)
           (get_next_states current M_total C_total boat_capacity) st.

(** The path reconstruction loop [while current is not None]. *)
Fixpoint reconstruct (fuel : nat) (par : gmap state (option state))
    (current : option state) (path : list state) : outcome (list state) :=
  match current with
  | None => Ret path
  | Some c =>
      match fuel with
      | O => OutOfFuel
      | S fuel' =>
          match par !! c with
          | None => KeyError
          | Some p => reconstruct fuel' par p (path ++ [c])
          end
      end
  end.

(** One iteration of [while open_heap]. *)
Inductive step_result : Type :=
| Exhausted                                  (* the heap is empty *)
| Continue (st : search_state)               (* next iteration *)
| Goal (current : state) (st : search_state) (* the goal was popped *).

Definition search_step (M_total C_total : Z) (goal_state : state) (boat_capacity : Z)
    (st : search_state) : outcome step_result :=
  match heappop (open_heap st) with
  | None => Ret Exhausted
  | Some ((f, g, current), rest) =>
      if decide (current ∈ visited st) then
        Ret (Continue {| open_heap := rest; g_cost := g_cost st; parent := parent st;
                         visited := visited st; num_generated := num_generated st |})
      else
        let st1 := {| open_heap := rest; g_cost := g_cost st; parent := parent st;
                      visited := {[current]} ∪ visited st;
                      num_generated := num_generated st |} in
        if decide (current = goal_state) then Ret (Goal current st1)
        else
          st' ← expand M_total C_total boat_capacity g current st1;
          Ret (Continue st')
  end.

Fixpoint search_loop (fuel : nat) (M_total C_total : Z) (goal_state : state)
    (boat_capacity : Z) (st : search_state) : outcome (option (list state) * Z) :=
  match search_step M_total C_total goal_state boat_capacity st with
  | Ret Exhausted => Ret (None, num_generated st)
  | Ret (Goal current st1) =>
      match reconstruct fuel (parent st1) (Some current) [] with
      | Ret path => Ret (Some (reverse path), num_generated st1)
      | KeyError => KeyError
      | OverflowError => OverflowError
      | OutOfFuel => OutOfFuel
      end
  | Ret (Continue st') =>
      match fuel with
      | O => OutOfFuel
      | S fuel' => search_loop fuel' M_total C_total goal_state boat_capacity st'
      end
  | KeyError => KeyError
  | OverflowError => OverflowError
  | OutOfFuel => OutOfFuel
  end.

(** The state in which the main loop is entered: the lines of
    [astar_search] before the [while]. *)
Definition initial_state (M_total C_total : Z) (start_state : state)
    : outcome search_state :=
  start_h ← heuristic start_state M_total C_total;
  Ret {| open_heap := heappush [] (start_h, 0, start_state);
         g_cost := {[ start_state := 0 ]};
         parent := {[ start_state := None ]};
         visited := ∅;
         num_generated := 1 |}.

Definition astar_search (fuel : nat) (M_total C_total : Z) (start_state goal_state : state)
    (boat_capacity : Z) : outcome (option (list state) * Z) :=
  st ← initial_state M_total C_total start_state;
  search_loop fuel M_total C_total goal_state boat_capacity st.

(** ** [solve_missionaries_cannibals] *)

Record row : Type := Row {
  row_M_left : Z;
  row_C_left : Z;
  row_M_right : Z;
  row_C_right : Z;
  row_boat_position : string
}.

Record report : Type := Report {
  output : option (list (string * row));
  number_of_states : Z
}.

(** Python's [str(i)] for an index [i]. *)
Definition str (i : nat) : string := NilZero.string_of_uint (Nat.to_uint i).

Definition format_path (solution_path : list state) : list (string * row) :=
  imap (fun i '(Ml, Cl, Mr, Cr, bp) =>
          (str i, {| row_M_left := Ml; row_C_left := Cl; row_M_right := Mr;
                     row_C_right := Cr; row_boat_position := bp |}))
       solution_path.

(** The four counts of the start default to everybody on the left bank
    when they are [None]; the caller gives the totals, the capacity and
    the boat position (Python's defaults for them are 3, 3, 2 and
    ["left"]). *)
Definition solve_missionaries_cannibals (fuel : nat) (M_total C_total boat_capacity : Z)
    (M_left C_left M_right C_right : option Z) (boat_position : string) : outcome report :=
  let M_left := default M_total M_left in
  let C_left := default C_total C_left in
  let M_right := default 0 M_right in
  let C_right := default 0 C_right in
  let start_state := (M_left, C_left, M_right, C_right, boat_position) in
  let goal_state := (0, 0, M_total, C_total, "right") in
  match astar_search fuel M_total C_total start_state goal_state boat_capacity with
  | Ret (None, num_generated) =>
      Ret {| output := None; number_of_states := num_generated |}
  | Ret (Some solution_path, num_generated) =>
      Ret {| output := Some (format_path solution_path);
             number_of_states := num_generated |}
  | KeyError => KeyError
  | OverflowError => OverflowError
  | OutOfFuel => OutOfFuel
  end.

(** ** The request handler [missionary_cannibal] of [app.py] *)

(** The values [json.loads] yields for the fields of a request. *)
Inductive json : Type :=
| JInt (z : Z)
| JStr (s : string)
| JNull.

Global Instance json_eq_dec : EqDecision json.
Proof. solve_decision. Defined.

(** The three solver modules the handler imports; only the A* module is
    part of the sources at hand, so a call is recorded, not evaluated. *)
Inductive solver_module : Type :=
| missionary_cannibal_solver_bfs
| missionary_cannibal_solver_dfs
| missionary_cannibal_a_star.

(** A call [module.solve_missionaries_cannibals(arguments...)] with its
    positional arguments in the order in which the handler passes them. *)
Record solver_call : Type := SolverCall {
  callee : solver_module;
  arguments : list json
}.

(** [parameters[key]] *)
Definition getitem (parameters : gmap string json) (key : string) : outcome json :=
  match parameters !! key with
  | Some v => Ret v
  | None => KeyError
  end.

(** The handler answers with [json.dumps] of the call it selects; when no
    [if] matches the function ends without a [return], that is, it returns
    Python's [None]. *)
Definition missionary_cannibal (parameters : gmap string json)
    : outcome (option solver_call) :=
  M_total ← getitem parameters "M_total";
  C_total ← getitem parameters "C_total";
  M_left ← getitem parameters "M_left";
  C_left ← getitem parameters "C_left";
  M_right ← getitem parameters "M_right";
  C_right ← getitem parameters "C_right";
  boat_position ← getitem parameters "boat_position";
  solver ← getitem parameters "solver";
  let args := [M_total; C_total; M_left; C_left; M_right; C_right; boat_position] in
  if decide (solver = JStr "bfs") then
    Ret (Some {| callee := missionary_cannibal_solver_bfs; arguments := args |})
  else if decide (solver = JStr "dfs") then
    Ret (Some {| callee := missionary_cannibal_solver_dfs; arguments := args |})
  else if decide (solver = JStr "a_star") then
    Ret (Some {| callee := missionary_cannibal_a_star; arguments := args |})
  else Ret None.

(** ** Vocabulary of the specification *)

(** The legality checker on a state. *)
Definition state_ok (M_total C_total : Z) (s : state) : bool :=
  let '(M_left, C_left, M_right, C_right, boat_pos) := s in
  is_valid_state M_left C_left M_right C_right M_total C_total.

(** [i] missionaries and [j] cannibals leave the left bank. *)
Definition cross_to_right (s : state) (move : Z * Z) : state :=
  let '(M_left, C_left, M_right, C_right, boat_pos) := s in
  let '(i, j) := move in
  (M_left - i, C_left - j, M_right + i, C_right + j, "right").

(** [i] missionaries and [j] cannibals leave the right bank. *)
Definition cross_to_left (s : state) (move : Z * Z) : state :=
  let '(M_left, C_left, M_right, C_right, boat_pos) := s in
  let '(i, j) := move in
  (M_left + i, C_left + j, M_right - i, C_right - j, "left").

(** The successor generator as the specification words it: every move of
    the list, applied from the boat's bank, kept when legal. *)
Definition spec_next_states (s : state) (M_total C_total boat_capacity : Z) : list state :=
  let cross := if String.eqb (s.2) "left" then cross_to_right else cross_to_left in
  filter (fun s' => state_ok M_total C_total s' = true)
         (cross s <$> get_possible_moves boat_capacity).

(** The number of people on the left bank. *)
Definition people_left (s : state) : Z :=
  let '(M_left, C_left, M_right, C_right, boat_pos) := s in M_left + C_left.

(** The number of people on the right bank. *)
Definition people_right (s : state) : Z :=
  let '(M_left, C_left, M_right, C_right, boat_pos) := s in M_right + C_right.

(** [moves_to n s t]: [t] is reached from [s] by [n] legal crossings. *)
Inductive moves_to (M_total C_total boat_capacity : Z) : nat -> state -> state -> Prop :=
| moves_here s : moves_to M_total C_total boat_capacity 0 s s
| moves_next n s s' t :
    s' ∈ get_next_states s M_total C_total boat_capacity ->
    moves_to M_total C_total boat_capacity n s' t ->
    moves_to M_total C_total boat_capacity (S n) s t.

(** The goal of the puzzle. *)
Definition goal_of (M_total C_total : Z) : state := (0, 0, M_total, C_total, "right").

(** One iteration of the main loop that goes on to the next one. *)
Definition iterates (M_total C_total : Z) (goal_state : state) (boat_capacity : Z)
    (st st' : search_state) : Prop :=
  search_step M_total C_total goal_state boat_capacity st = Ret (Continue st').

(** Conservation of the people along a crossing. *)
Definition same_people (s t : state) : Prop :=
  let '(M_left, C_left, M_right, C_right, _) := s in
  let '(M_left', C_left', M_right', C_right', _) := t in
  M_left + M_right = M_left' + M_right' /\ C_left + C_right = C_left' + C_right'.

(** * Properties *)

(** ** The legality checker *)

Ltac split_comparisons :=
  repeat (match goal with
          | |- context [Z.ltb ?a ?b] => destruct (Z.ltb_spec a b)
          | |- context [Z.leb ?a ?b] => destruct (Z.leb_spec a b)
          end; simpl).

Lemma is_valid_state_true M_left C_left M_right C_right M_total C_total :
  is_valid_state M_left C_left M_right C_right M_total C_total = true <->
  (0 <= M_left /\ 0 <= C_left /\ 0 <= M_right /\ 0 <= C_right) /\
  (M_left <= M_total /\ C_left <= C_total /\ M_right <= M_total /\ C_right <= C_total) /\
  (0 < M_left -> C_left <= M_left) /\
  (0 < M_right -> C_right <= M_right).
Proof.
  unfold is_valid_state. rewrite !Z.gtb_ltb.
  split_comparisons; split; try discriminate; try lia; reflexivity.
Qed.

(** C4: [is_valid_state] accepts exactly the states whose four counts are
    non-negative and within their totals and in which, on each bank holding
    a missionary, the cannibals do not outnumber the missionaries; with no
    missionary on a bank the verdict does not depend on how the cannibals
    of that bank compare with the missionaries: only the bounds of the
    count are checked. *)
Theorem is_valid_state_spec :
  forall M_left C_left M_right C_right M_total C_total : Z,
    (is_valid_state M_left C_left M_right C_right M_total C_total = true <->
     (0 <= M_left /\ 0 <= C_left /\ 0 <= M_right /\ 0 <= C_right) /\
     (M_left <= M_total /\ C_left <= C_total /\
      M_right <= M_total /\ C_right <= C_total) /\
     (0 < M_left -> C_left <= M_left) /\
     (0 < M_right -> C_right <= M_right))
    /\ is_valid_state 0 C_left M_right C_right M_total C_total
       = (0 <=? C_left) && (C_left <=? C_total)
         && is_valid_state 0 0 M_right C_right M_total C_total
    /\ is_valid_state M_left C_left 0 C_right M_total C_total
       = (0 <=? C_right) && (C_right <=? C_total)
         && is_valid_state M_left C_left 0 0 M_total C_total.
Proof.
  intros. split; [apply is_valid_state_true|].
  split; apply Bool.eq_iff_eq_true;
    rewrite !andb_true_iff, !is_valid_state_true, !Z.leb_le; lia.
Qed.

(** ** The successor generator *)

Lemma elem_of_range (n k : Z) : k ∈ range n <-> 0 <= k < n.
Proof. unfold range. rewrite elem_of_seqZ. lia. Qed.

Lemma elem_of_get_possible_moves (boat_capacity i j : Z) :
  (i, j) ∈ get_possible_moves boat_capacity <->
  0 <= i /\ 0 <= j /\ 1 <= i + j <= boat_capacity.
Proof.
  unfold get_possible_moves. rewrite list_elem_of_bind. split.
  - intros (i' & Hin & Hi'). apply list_elem_of_bind in Hin as (j' & Hin & Hj').
    apply elem_of_range in Hi', Hj'. rewrite Z.gtb_ltb in Hin.
    destruct (Z.leb_spec (i' + j') boat_capacity), (Z.ltb_spec 0 (i' + j'));
      simpl in Hin; try (by apply elem_of_nil in Hin).
    apply list_elem_of_singleton in Hin. injection Hin as -> ->. lia.
  - intros (Hi & Hj & Hij). exists i. split; [|apply elem_of_range; lia].
    apply list_elem_of_bind. exists j. split; [|apply elem_of_range; lia].
    rewrite Z.gtb_ltb.
    destruct (Z.leb_spec (i + j) boat_capacity), (Z.ltb_spec 0 (i + j));
      simpl; try lia.
    apply list_elem_of_singleton. reflexivity.
Qed.

Lemma NoDup_get_possible_moves (boat_capacity : Z) :
  NoDup (get_possible_moves boat_capacity).
Proof.
  unfold get_possible_moves, range.
  apply NoDup_bind; [| |apply NoDup_seqZ].
  - intros i1 i2 [a b] _ _ H1 H2.
    apply list_elem_of_bind in H1 as (j1 & H1 & _).
    apply list_elem_of_bind in H2 as (j2 & H2 & _).
    destruct ((i1 + j1 <=? boat_capacity) && (i1 + j1 >? 0));
      [|by apply elem_of_nil in H1].
    destruct ((i2 + j2 <=? boat_capacity) && (i2 + j2 >? 0));
      [|by apply elem_of_nil in H2].
    apply list_elem_of_singleton in H1, H2. congruence.
  - intros i _. apply NoDup_bind; [| |apply NoDup_seqZ].
    + intros j1 j2 [a b] _ _ H1 H2.
      destruct ((i + j1 <=? boat_capacity) && (i + j1 >? 0));
        [|by apply elem_of_nil in H1].
      destruct ((i + j2 <=? boat_capacity) && (i + j2 >? 0));
        [|by apply elem_of_nil in H2].
      apply list_elem_of_singleton in H1, H2. congruence.
    + intros j _. destruct ((i + j <=? boat_capacity) && (i + j >? 0));
        [apply NoDup_singleton|apply NoDup_nil_2].
Qed.

Lemma bind_keep_valid (M_total C_total : Z) (cross : Z * Z -> state)
    (moves : list (Z * Z)) :
  (moves ≫= fun move =>
     if state_ok M_total C_total (cross move) then [cross move] else [])
  = filter (fun s' => state_ok M_total C_total s' = true) (cross <$> moves).
Proof.
  induction moves as [|move moves IH]; [reflexivity|].
  rewrite bind_cons, fmap_cons, IH, filter_cons.
  destruct (state_ok M_total C_total (cross move)) eqn:Hok.
  - rewrite decide_True by reflexivity. reflexivity.
  - rewrite decide_False by discriminate. reflexivity.
Qed.

Lemma get_next_states_eq_spec (s : state) (M_total C_total boat_capacity : Z) :
  get_next_states s M_total C_total boat_capacity
  = spec_next_states s M_total C_total boat_capacity.
Proof.
  destruct s as [[[[M_left C_left] M_right] C_right] boat_pos].
  unfold get_next_states, spec_next_states. simpl.
  destruct (String.eqb boat_pos "left");
    rewrite <- bind_keep_valid; apply list_bind_ext; try reflexivity;
    intros [i j]; reflexivity.
Qed.

Lemma elem_of_get_next_states (s s' : state) (M_total C_total boat_capacity : Z) :
  s' ∈ get_next_states s M_total C_total boat_capacity <->
  exists i j : Z,
    (0 <= i /\ 0 <= j /\ 1 <= i + j <= boat_capacity) /\
    s' = (if String.eqb (s.2) "left" then cross_to_right else cross_to_left) s (i, j) /\
    state_ok M_total C_total s' = true.
Proof.
  rewrite get_next_states_eq_spec. unfold spec_next_states.
  rewrite list_elem_of_filter, list_elem_of_fmap. split.
  - intros (Hok & [i j] & -> & Hin). exists i, j.
    apply elem_of_get_possible_moves in Hin. auto.
  - intros (i & j & Hij & -> & Hok). split; [exact Hok|].
    exists (i, j). split; [reflexivity|].
    apply elem_of_get_possible_moves. exact Hij.
Qed.

(** C5: [get_next_states] returns, in the order of the moves, the states
    obtained by letting [i] missionaries and [j] cannibals with
    [1 <= i + j <= boat_capacity] cross from the boat's bank to the other
    one, the boat changing side, and keeps the legal ones; each pair
    [(i, j)] is tried once and equal results are not merged.  A boat
    position other than ["left"] is read as the right bank.  The function
    is pure: two calls on the same arguments give equal lists. *)
Theorem get_next_states_spec :
  forall (s : state) (M_total C_total boat_capacity : Z),
    get_next_states s M_total C_total boat_capacity
    = filter (fun s' => state_ok M_total C_total s' = true)
        ((if String.eqb (s.2) "left" then cross_to_right s else cross_to_left s)
           <$> get_possible_moves boat_capacity)
    /\ (forall i j : Z,
          (i, j) ∈ get_possible_moves boat_capacity <->
          0 <= i /\ 0 <= j /\ 1 <= i + j <= boat_capacity)
    /\ NoDup (get_possible_moves boat_capacity)
    /\ (forall s' : state,
          s' ∈ get_next_states s M_total C_total boat_capacity <->
          exists i j : Z,
            (0 <= i /\ 0 <= j /\ 1 <= i + j <= boat_capacity) /\
            s' = (if String.eqb (s.2) "left"
                  then cross_to_right else cross_to_left) s (i, j) /\
            state_ok M_total C_total s' = true).
Proof.
  intros. split_and!.
  - rewrite get_next_states_eq_spec. unfold spec_next_states.
    destruct (String.eqb (s.2) "left"); reflexivity.
  - intros. apply elem_of_get_possible_moves.
  - apply NoDup_get_possible_moves.
  - intros. apply elem_of_get_next_states.
Qed.

(** ** The order on frontier entries *)

Class TotalCompare {A : Type} (cmp : A -> A -> comparison) : Prop := {
  compare_eq : forall x y, cmp x y = Eq <-> x = y;
  compare_antisym : forall x y, cmp y x = CompOpp (cmp x y);
  compare_lt_trans : forall x y z, cmp x y = Lt -> cmp y z = Lt -> cmp x z = Lt
}.

Lemma compare_refl {A : Type} (cmp : A -> A -> comparison) `{!TotalCompare cmp}
  (x : A) : cmp x x = Eq.
Proof. apply compare_eq. reflexivity. Qed.

Global Instance Z_compare_total : TotalCompare Z.compare.
Proof.
  split.
  - apply Z.compare_eq_iff.
  - intros x y. apply Z.compare_antisym.
  - intros x y z. rewrite !Z.compare_lt_iff. lia.
Qed.

Global Instance string_compare_total : TotalCompare String.compare.
Proof.
  split.
  - apply String_as_OT.cmp_eq.
  - intros x y. apply String_as_OT.cmp_antisym.
  - intros x y z. change String.compare with String_as_OT.cmp.
    rewrite !String_as_OT.cmp_lt. apply String_as_OT.lt_trans.
Qed.

Global Instance pair_compare_total {A B : Type} (cmpA : A -> A -> comparison)
    (cmpB : B -> B -> comparison) :
  TotalCompare cmpA -> TotalCompare cmpB -> TotalCompare (pair_compare cmpA cmpB).
Proof.
  intros HA HB. split.
  - intros [x1 x2] [y1 y2]. unfold pair_compare, lex. simpl.
    destruct (cmpA x1 y1) eqn:E1.
    + apply compare_eq in E1 as ->. rewrite compare_eq. split; congruence.
    + split; [discriminate|]. intros [= <- _].
      rewrite (compare_refl cmpA) in E1. discriminate.
    + split; [discriminate|]. intros [= <- _].
      rewrite (compare_refl cmpA) in E1. discriminate.
  - intros [x1 x2] [y1 y2]. unfold pair_compare, lex. simpl.
    rewrite (compare_antisym (cmp:=cmpA) x1 y1), (compare_antisym (cmp:=cmpB) x2 y2).
    destruct (cmpA x1 y1); reflexivity.
  - intros [x1 x2] [y1 y2] [z1 z2]. unfold pair_compare, lex. simpl.
    destruct (cmpA x1 y1) eqn:E1; try discriminate.
    + apply compare_eq in E1 as ->.
      destruct (cmpA y1 z1) eqn:E2; try discriminate; [|reflexivity].
      apply compare_lt_trans.
    + intros _. destruct (cmpA y1 z1) eqn:E2; try discriminate.
      * apply compare_eq in E2 as <-. rewrite E1. reflexivity.
      * rewrite (compare_lt_trans _ _ _ E1 E2). reflexivity.
Qed.

Global Instance state_compare_total : TotalCompare state_compare.
Proof. unfold state_compare. apply _. Qed.

Global Instance entry_compare_total : TotalCompare entry_compare.
Proof. unfold entry_compare. apply _. Qed.

Lemma entry_le_refl (x : entry) : entry_le x x.
Proof.
  unfold entry_le. rewrite (compare_refl entry_compare). discriminate.
Qed.

Lemma entry_le_trans (x y z : entry) : entry_le x y -> entry_le y z -> entry_le x z.
Proof.
  unfold entry_le. intros Hxy Hyz.
  destruct (entry_compare x y) eqn:E1; [| |congruence].
  - apply compare_eq in E1 as ->. exact Hyz.
  - destruct (entry_compare y z) eqn:E2; [| |congruence].
    + apply compare_eq in E2 as <-. rewrite E1. discriminate.
    + rewrite (compare_lt_trans _ _ _ E1 E2). discriminate.
Qed.

Lemma entry_ltb_true (x y : entry) : entry_ltb x y = true -> entry_le x y.
Proof.
  unfold entry_ltb, entry_le. destruct (entry_compare x y); congruence.
Qed.

Lemma entry_ltb_false (x y : entry) : entry_ltb x y = false -> entry_le y x.
Proof.
  unfold entry_ltb, entry_le. rewrite (compare_antisym (cmp:=entry_compare) x y).
  destruct (entry_compare x y); simpl; congruence.
Qed.

(** What [entry_le] says on the components of the tuples. *)
Lemma entry_le_components (f1 g1 : Z) (s1 : state) (f2 g2 : Z) (s2 : state) :
  entry_le (f1, g1, s1) (f2, g2, s2) <->
  f1 < f2 \/ (f1 = f2 /\ (g1 < g2 \/ (g1 = g2 /\ state_compare s1 s2 <> Gt))).
Proof.
  unfold entry_le, entry_compare, pair_compare, lex. simpl.
  destruct (Z.compare_spec f1 f2), (Z.compare_spec g1 g2);
    split; intros Hc; try lia; try discriminate; try congruence;
    intuition (try lia; try congruence).
Qed.

(** ** The frontier *)

Lemma heap_min_in (e : entry) (heap : list entry) : heap_min e heap ∈ e :: heap.
Proof.
  revert e. induction heap as [|x heap IH]; intros e; simpl.
  - apply list_elem_of_here.
  - specialize (IH (if entry_ltb x e then x else e)).
    apply elem_of_cons in IH as [->|IH].
    + destruct (entry_ltb x e); [apply list_elem_of_further|]; apply list_elem_of_here.
    + do 2 apply list_elem_of_further. exact IH.
Qed.

Lemma heap_min_le_first (e : entry) (heap : list entry) : entry_le (heap_min e heap) e.
Proof.
  revert e. induction heap as [|x heap IH]; intros e; simpl.
  - apply entry_le_refl.
  - destruct (entry_ltb x e) eqn:E; [|apply IH].
    eapply entry_le_trans; [apply IH|]. apply entry_ltb_true, E.
Qed.

Lemma heap_min_le (e : entry) (heap : list entry) (x : entry) :
  x ∈ e :: heap -> entry_le (heap_min e heap) x.
Proof.
  revert e. induction heap as [|y heap IH]; intros e Hin; simpl.
  - apply elem_of_cons in Hin as [->|Hin]; [apply entry_le_refl|].
    by apply elem_of_nil in Hin.
  - apply elem_of_cons in Hin as [->|Hin].
    + eapply entry_le_trans; [apply heap_min_le_first|].
      destruct (entry_ltb y e) eqn:E; [apply entry_ltb_true, E|apply entry_le_refl].
    + apply elem_of_cons in Hin as [->|Hin].
      * eapply entry_le_trans; [apply heap_min_le_first|].
        destruct (entry_ltb y e) eqn:E; [apply entry_le_refl|apply entry_ltb_false, E].
      * apply IH. apply list_elem_of_further, Hin.
Qed.

Lemma remove_one_perm (e : entry) (heap : list entry) :
  e ∈ heap -> heap ≡ₚ e :: remove_one e heap.
Proof.
  induction heap as [|x heap IH]; intros Hin; [by apply elem_of_nil in Hin|].
  simpl. destruct (decide (x = e)) as [->|Hne]; [reflexivity|].
  apply elem_of_cons in Hin as [->|Hin]; [congruence|].
  rewrite (IH Hin) at 1. apply Permutation_swap.
Qed.

Lemma heappop_spec (heap : list entry) (m : entry) (rest : list entry) :
  heappop heap = Some (m, rest) ->
  heap ≡ₚ m :: rest /\ (forall x, x ∈ heap -> entry_le m x).
Proof.
  destruct heap as [|e heap]; [discriminate|]. simpl. intros [= <- <-]. split.
  - apply (remove_one_perm (heap_min e heap) (e :: heap)), heap_min_in.
  - intros x. apply heap_min_le.
Qed.

Lemma heappop_None (heap : list entry) : heappop heap = None <-> heap = [].
Proof. destruct heap; simpl; split; congruence. Qed.

(** ** The heuristic *)

Lemma ceil_half_bounds (n : Z) : n <= 2 * ceil_half n < n + 2.
Proof. unfold ceil_half. pose proof (Z.div_mod (- n) 2). pose proof (Z.mod_pos_bound (- n) 2). lia. Qed.

(** The integers that the conversion to a float leaves as they are. *)
Definition float_exact (n : Z) : Prop := Z.abs n <= 2 ^ 53.

Lemma round_to_double_exact (n : Z) : float_exact n -> round_to_double n = n.
Proof.
  unfold float_exact, round_to_double. intros Hn. cbv zeta.
  destruct (Z.leb_spec (Z.log2 (Z.abs n) - 52) 0) as [|Hlog]; [reflexivity|].
  assert (Hpos : 0 < Z.abs n).
  { destruct (Z.lt_ge_cases 0 (Z.abs n)) as [|Hle]; [assumption|].
    rewrite (Z.log2_nonpos _ Hle) in Hlog. lia. }
  pose proof (proj1 (Z.log2_spec _ Hpos)) as Hlow.
  assert (Hpow : 2 ^ 53 <= 2 ^ Z.log2 (Z.abs n)) by (apply Z.pow_le_mono_r; lia).
  assert (Habs : Z.abs n = 2 ^ 53) by lia.
  destruct (Z.abs_eq_or_opp n) as [Heq|Heq]; rewrite Heq in Habs.
  - rewrite Habs. vm_compute. reflexivity.
  - replace n with (- 2 ^ 53) by lia. vm_compute. reflexivity.
Qed.

Lemma float_of_int_exact (n : Z) : float_exact n -> float_of_int n = Ret n.
Proof.
  intros Hn. unfold float_of_int. cbv zeta. rewrite (round_to_double_exact n Hn).
  assert (Hlimit : 2 ^ 53 < float_limit) by (vm_compute; reflexivity).
  unfold float_exact in Hn.
  destruct (Z.ltb_spec (Z.abs n) float_limit); [reflexivity|lia].
Qed.

Lemma heuristic_people_left (s : state) (M_total C_total : Z) :
  heuristic s M_total C_total = x ← float_of_int (people_left s); Ret (ceil_half x).
Proof. destruct s as [[[[M_left C_left] M_right] C_right] boat_pos]. reflexivity. Qed.

Lemma heuristic_exact (s : state) (M_total C_total : Z) :
  float_exact (people_left s) ->
  heuristic s M_total C_total = Ret (ceil_half (people_left s)).
Proof.
  intros Hs. rewrite heuristic_people_left, (float_of_int_exact _ Hs). reflexivity.
Qed.

(** The only exception of [heuristic] is [OverflowError]. *)
Definition returns_or_overflows {A : Type} (o : outcome A) : Prop :=
  o = OverflowError \/ exists a, o = Ret a.

Lemma heuristic_outcome (s : state) (M_total C_total : Z) :
  returns_or_overflows (heuristic s M_total C_total).
Proof.
  rewrite heuristic_people_left. unfold float_of_int. cbv zeta.
  destruct (Z.abs _ <? float_limit); [right; eexists; reflexivity|left; reflexivity].
Qed.

(** A crossing changes the number of people on the left bank by at most
    the capacity of the boat, and conserves the people. *)
Lemma crossing_people (s s' : state) (M_total C_total boat_capacity : Z) :
  s' ∈ get_next_states s M_total C_total boat_capacity ->
  people_left s - boat_capacity <= people_left s' /\
  same_people s s' /\ state_ok M_total C_total s' = true /\
  (s'.2 = "left" \/ s'.2 = "right").
Proof.
  intros (i & j & Hij & -> & Hok)%elem_of_get_next_states. revert Hok.
  destruct s as [[[[M_left C_left] M_right] C_right] boat_pos]. simpl.
  destruct (String.eqb boat_pos "left"); simpl; intros Hok;
    (split; [lia|]); (split; [lia|]); (split; [exact Hok|]); auto.
Qed.

(** The left bank of a state that passes [is_valid_state] holds at most
    the totals. *)
Lemma state_ok_people_left (M_total C_total : Z) (s : state) :
  state_ok M_total C_total s = true -> 0 <= people_left s <= M_total + C_total.
Proof.
  destruct s as [[[[ml cl] mr] cr] b]. simpl. intros Hok%is_valid_state_true. lia.
Qed.

(** When the totals are within the exact range of the floats, so is the
    left bank of every successor. *)
Lemma successor_float_exact (s s' : state) (M_total C_total boat_capacity : Z) :
  M_total + C_total <= 2 ^ 53 ->
  s' ∈ get_next_states s M_total C_total boat_capacity ->
  float_exact (people_left s').
Proof.
  intros Htotal (_ & _ & Hok & _)%crossing_people.
  apply state_ok_people_left in Hok. unfold float_exact. lia.
Qed.



Ltac crossing s' :=
  apply (moves_next _ _ _ _ _ s');
  [apply (bool_decide_unpack _); vm_compute; exact I|].



(** ** The search: what every iteration preserves *)

Lemma for_each_cons {A S : Type} (body : S -> A -> outcome S) (x : A) (l : list A)
    (st st' : S) :
  for_each body (x :: l) st = Ret st' ->
  exists st1, body st x = Ret st1 /\ for_each body l st1 = Ret st'.
Proof.
  cbn [for_each]. destruct (body st x) as [st1| | |]; simpl; try discriminate. eauto.
Qed.

Lemma for_each_outcome {A S : Type} (body : S -> A -> outcome S) (l : list A) (st : S) :
  (forall s x, returns_or_overflows (body s x)) ->
  returns_or_overflows (for_each body l st).
Proof.
  intros Hbody. revert st. induction l as [|x l IH]; intros st; cbn [for_each].
  - right. eexists. reflexivity.
  - destruct (Hbody st x) as [->|[st1 ->]]; simpl; [left; reflexivity|apply IH].
Qed.

Section Search.
Context (M_total C_total boat_capacity : Z) (start_state goal_state : state).

Local Abbreviation succs s := (get_next_states s M_total C_total boat_capacity).

Record invariant (st : search_state) : Prop := Invariant {
  inv_parent_start : parent st !! start_state = Some None;
  inv_cost_start : g_cost st !! start_state = Some 0;
  inv_edge : forall x p, parent st !! x = Some (Some p) ->
    x ∈ succs p /\
    exists gx gp, g_cost st !! x = Some gx /\ g_cost st !! p = Some gp /\ 0 <= gp < gx;
  inv_root : forall x, parent st !! x = Some None -> x = start_state;
  inv_heap : forall f g x, (f, g, x) ∈ open_heap st ->
    heuristic x M_total C_total = Ret (f - g) /\
    (x = start_state \/ exists p, x ∈ succs p) /\
    exists gx, g_cost st !! x = Some gx /\ 0 <= gx <= g;
  inv_dom : forall x, is_Some (g_cost st !! x) -> is_Some (parent st !! x);
  inv_count : Z.of_nat (size (parent st)) <= num_generated st
}.

(** The state being expanded has a recorded cost of at most [g]. *)
Definition settled (g : Z) (current : state) (st : search_state) : Prop :=
  exists gc, g_cost st !! current = Some gc /\ 0 <= gc <= g.

(** The loop is entered when [heuristic] returned on the start state. *)
Lemma initial_state_Ret (st0 : search_state) :
  initial_state M_total C_total start_state = Ret st0 ->
  exists start_h : Z,
    heuristic start_state M_total C_total = Ret start_h /\
    st0 = {| open_heap := [(start_h, 0, start_state)];
             g_cost := {[ start_state := 0 ]};
             parent := {[ start_state := None ]};
             visited := ∅;
             num_generated := 1 |}.
Proof.
  unfold initial_state.
  destruct (heuristic start_state M_total C_total) as [h| | |]; simpl; try discriminate.
  intros [= <-]. exists h. split; reflexivity.
Qed.

Lemma initial_state_invariant (st0 : search_state) :
  initial_state M_total C_total start_state = Ret st0 -> invariant st0.
Proof.
  intros (h & Hh & ->)%initial_state_Ret. split; simpl.
  - apply lookup_singleton_eq.
  - apply lookup_singleton_eq.
  - intros x p [_ [=]]%lookup_singleton_Some.
  - intros x [-> _]%lookup_singleton_Some. reflexivity.
  - intros f g x [= -> -> ->]%list_elem_of_singleton.
    split; [rewrite Hh; f_equal; lia|]. split; [by left|].
    exists 0. rewrite lookup_singleton_eq. split; [reflexivity|lia].
  - intros x [gx [-> _]%lookup_singleton_Some]. rewrite lookup_singleton_eq. eauto.
  - rewrite map_size_singleton. lia.
Qed.

Lemma invariant_shrink (st : search_state) (heap' : list entry) (visited' : gset state) :
  invariant st ->
  (forall e, e ∈ heap' -> e ∈ open_heap st) ->
  invariant {| open_heap := heap'; g_cost := g_cost st; parent := parent st;
               visited := visited'; num_generated := num_generated st |}.
Proof.
  intros [] Hsub. split; simpl; auto.
Qed.

(** The two ways in which the body of the [for] loop returns: the
    successor is left alone, or it is recorded and pushed with the value
    that [heuristic] returned. *)
Lemma relax_Ret (g : Z) (current : state) (st : search_state) (nxt : state)
    (st' : search_state) :
  relax M_total C_total g current st nxt = Ret st' ->
  (match g_cost st !! nxt with
   | Some c => g + 1 <? c
   | None => true
   end = false /\ st' = st) \/
  (match g_cost st !! nxt with
   | Some c => g + 1 <? c
   | None => true
   end = true /\
   exists h : Z,
     heuristic nxt M_total C_total = Ret h /\
     st' = {| open_heap := heappush (open_heap st) (g + 1 + h, g + 1, nxt);
              g_cost := <[nxt := g + 1]> (g_cost st);
              parent := <[nxt := Some current]> (parent st);
              visited := visited st;
              num_generated := num_generated st + 1 |}).
Proof.
  unfold relax. cbv zeta.
  destruct (match g_cost st !! nxt with
            | Some c => g + 1 <? c
            | None => true
            end); [|intros [= <-]; left; split; reflexivity].
  destruct (heuristic nxt M_total C_total) as [h| | |]; simpl; try discriminate.
  intros [= <-]. right. split; [reflexivity|]. exists h. split; reflexivity.
Qed.

Lemma relax_outcome (g : Z) (current : state) (st : search_state) (nxt : state) :
  returns_or_overflows (relax M_total C_total g current st nxt).
Proof.
  unfold relax. cbv zeta.
  destruct (match g_cost st !! nxt with
            | Some c => g + 1 <? c
            | None => true
            end); [|right; eexists; reflexivity].
  destruct (heuristic_outcome nxt M_total C_total) as [->|[h ->]]; simpl;
    [left; reflexivity|right; eexists; reflexivity].
Qed.

Lemma relax_invariant (g : Z) (current : state) (st : search_state) (nxt : state)
    (st' : search_state) :
  invariant st -> settled g current st -> nxt ∈ succs current ->
  relax M_total C_total g current st nxt = Ret st' ->
  invariant st' /\ settled g current st'.
Proof.
  intros Hinv (gc & Hgc & Hgc0) Hnxt
    [[_ ->]|(Hupd & h & Hh & ->)]%relax_Ret; [split; [exact Hinv|exists gc; auto]|].
  assert (Hlt : forall c, g_cost st !! nxt = Some c -> g + 1 < c).
  { intros c Hc. rewrite Hc in Hupd. apply Z.ltb_lt, Hupd. }
  assert (Hstart : nxt <> start_state).
  { intros ->. specialize (Hlt 0 (inv_cost_start _ Hinv)). lia. }
  assert (Hcur : nxt <> current).
  { intros ->. specialize (Hlt gc Hgc). lia. }
  destruct Hinv as [Hps Hcs Hedge Hroot Hheap Hdom Hcount].
  split; [split; simpl|].
  - rewrite lookup_insert_ne by done. exact Hps.
  - rewrite lookup_insert_ne by done. exact Hcs.
  - intros x p. rewrite lookup_insert. case_decide as Hx.
    + intros [= <-]. subst x. split; [exact Hnxt|].
      exists (g + 1), gc. rewrite lookup_insert_eq, lookup_insert_ne by done.
      split; [reflexivity|]. split; [exact Hgc|lia].
    + intros Hp. destruct (Hedge x p Hp) as (Hsucc & gx & gp & Hgx & Hgp & Hlt').
      split; [exact Hsucc|]. rewrite (lookup_insert_ne _ nxt x) by done.
      destruct (decide (nxt = p)) as [->|Hnp].
      * exists gx, (g + 1). rewrite lookup_insert_eq.
        specialize (Hlt gp Hgp). split; [exact Hgx|]. split; [reflexivity|lia].
      * exists gx, gp. rewrite lookup_insert_ne by done. auto.
  - intros x. rewrite lookup_insert. case_decide; [discriminate|]. apply Hroot.
  - intros f g0 x [Hin|Hin]%elem_of_app.
    + destruct (Hheap f g0 x Hin) as (Hf & Huniv & gx & Hgx & Hle).
      split; [exact Hf|]. split; [exact Huniv|].
      destruct (decide (nxt = x)) as [->|Hnx].
      * exists (g + 1). rewrite lookup_insert_eq. specialize (Hlt gx Hgx).
        split; [reflexivity|lia].
      * exists gx. rewrite lookup_insert_ne by done. auto.
    + apply list_elem_of_singleton in Hin. injection Hin as -> -> ->.
      split; [rewrite Hh; f_equal; lia|]. split; [right; eauto|].
      exists (g + 1). rewrite lookup_insert_eq. split; [reflexivity|lia].
  - intros x. rewrite !lookup_insert. case_decide; [eauto|apply Hdom].
  - rewrite map_size_insert. destruct (parent st !! nxt); simpl; lia.
  - exists gc. simpl. rewrite lookup_insert_ne by done. auto.
Qed.

Lemma relax_all_invariant (g : Z) (current : state) (nexts : list state)
    (st st' : search_state) :
  (forall nxt, nxt ∈ nexts -> nxt ∈ succs current) ->
  invariant st -> settled g current st ->
  for_each (relax M_total C_total g current) nexts st = Ret st' ->
  invariant st'.
Proof.
  revert st. induction nexts as [|nxt nexts IH]; intros st Hsub Hinv Hset Hrun.
  - injection Hrun as <-. exact Hinv.
  - apply for_each_cons in Hrun as (st1 & Hrelax & Hrun).
    destruct (relax_invariant g current st nxt st1 Hinv Hset) as [Hinv' Hset'];
      [apply Hsub, list_elem_of_here|exact Hrelax|].
    apply (IH st1); [|exact Hinv'|exact Hset'|exact Hrun].
    intros x Hx. apply Hsub, list_elem_of_further, Hx.
Qed.

Lemma expand_invariant (g : Z) (current : state) (st st' : search_state) :
  invariant st -> settled g current st ->
  expand M_total C_total boat_capacity g current st = Ret st' ->
  invariant st'.
Proof. intros Hinv Hset. apply relax_all_invariant; auto. Qed.

Lemma expand_outcome (g : Z) (current : state) (st : search_state) :
  returns_or_overflows (expand M_total C_total boat_capacity g current st).
Proof. apply for_each_outcome. intros s x. apply relax_outcome. Qed.

Lemma heappop_elem (heap : list entry) (m : entry) (rest : list entry) :
  heappop heap = Some (m, rest) ->
  m ∈ heap /\ (forall e, e ∈ rest -> e ∈ heap) /\ length heap = S (length rest).
Proof.
  intros [Hperm _]%heappop_spec. split_and!.
  - rewrite Hperm. apply list_elem_of_here.
  - intros e He. rewrite Hperm. apply list_elem_of_further, He.
  - rewrite Hperm. reflexivity.
Qed.

Local Abbreviation step := (search_step M_total C_total goal_state boat_capacity).

(** An iteration that goes on either dropped an entry of a visited state
    or expanded a state that is not the goal. *)
Lemma step_continue_cases (st st' : search_state) :
  step st = Ret (Continue st') ->
  exists (f g : Z) (current : state) (rest : list entry),
    heappop (open_heap st) = Some ((f, g, current), rest) /\
    ((current ∈ visited st /\
      st' = {| open_heap := rest; g_cost := g_cost st; parent := parent st;
               visited := visited st; num_generated := num_generated st |}) \/
     ((current ∉ visited st) /\ current <> goal_state /\
      expand M_total C_total boat_capacity g current
        {| open_heap := rest; g_cost := g_cost st; parent := parent st;
           visited := {[current]} ∪ visited st;
           num_generated := num_generated st |} = Ret st')).
Proof.
  unfold search_step.
  destruct (heappop (open_heap st)) as [[[[f g] current] rest]|] eqn:Hpop;
    [|discriminate].
  intros H. exists f, g, current, rest. split; [reflexivity|].
  destruct (decide (current ∈ visited st)) as [Hvis|Hvis].
  - left. injection H as <-. split; [exact Hvis|reflexivity].
  - destruct (decide (current = goal_state)) as [|Hne]; [discriminate|].
    cbv zeta in H.
    destruct (expand _ _ _ _ _ _) as [st2| | |]; simpl in H; try discriminate.
    injection H as <-. right. split; [exact Hvis|]. split; [exact Hne|reflexivity].
Qed.

Lemma step_goal_cases (st st1 : search_state) (current : state) :
  step st = Ret (Goal current st1) ->
  exists (f g : Z) (rest : list entry),
    heappop (open_heap st) = Some ((f, g, current), rest) /\
    (current ∉ visited st) /\ current = goal_state /\
    st1 = {| open_heap := rest; g_cost := g_cost st; parent := parent st;
             visited := {[current]} ∪ visited st;
             num_generated := num_generated st |}.
Proof.
  unfold search_step.
  destruct (heappop (open_heap st)) as [[[[f g] cur] rest]|] eqn:Hpop;
    [|discriminate].
  destruct (decide (cur ∈ visited st)) as [|Hvis]; [discriminate|].
  destruct (decide (cur = goal_state)) as [Hgoal|].
  - intros [= <- <-]. exists f, g, rest. auto.
  - cbv zeta. destruct (expand _ _ _ _ _ _) as [st2| | |]; simpl; discriminate.
Qed.

Lemma step_outcome (st : search_state) : returns_or_overflows (step st).
Proof.
  unfold search_step.
  destruct (heappop (open_heap st)) as [[[[f g] cur] rest]|];
    [|right; eexists; reflexivity].
  destruct (decide (cur ∈ visited st)); [right; eexists; reflexivity|].
  destruct (decide (cur = goal_state)); [right; eexists; reflexivity|].
  cbv zeta.
  destruct (expand_outcome g cur
              {| open_heap := rest; g_cost := g_cost st; parent := parent st;
                 visited := {[cur]} ∪ visited st;
                 num_generated := num_generated st |}) as [->|[st' ->]]; simpl;
    [left; reflexivity|right; eexists; reflexivity].
Qed.

Lemma step_continue_invariant (st st' : search_state) :
  invariant st -> step st = Ret (Continue st') -> invariant st'.
Proof.
  intros Hinv (f & g & current & rest & Hpop & Hcases)%step_continue_cases.
  apply heappop_elem in Hpop as (Hin & Hrest & _).
  destruct Hcases as [[_ ->]|(_ & _ & Hexp)].
  - apply (invariant_shrink st rest (visited st) Hinv Hrest).
  - eapply expand_invariant; [| |exact Hexp].
    + apply (invariant_shrink st rest _ Hinv Hrest).
    + destruct (inv_heap _ Hinv f g current Hin) as (_ & _ & Hcost). exact Hcost.
Qed.

Lemma step_goal_invariant (st st1 : search_state) (current : state) :
  invariant st -> step st = Ret (Goal current st1) ->
  invariant st1 /\ current = goal_state /\ is_Some (parent st1 !! current) /\
  num_generated st1 = num_generated st.
Proof.
  intros Hinv (f & g & rest & Hpop & _ & Hgoal & ->)%step_goal_cases.
  apply heappop_elem in Hpop as (Hin & Hrest & _). split_and!.
  - apply (invariant_shrink st rest _ Hinv Hrest).
  - exact Hgoal.
  - simpl. apply (inv_dom _ Hinv).
    destruct (inv_heap _ Hinv f g current Hin) as (_ & _ & gx & Hgx & _). eauto.
  - reflexivity.
Qed.

(** *** The reconstruction of the path *)

(** [is_chain par current l]: [l] lists the states the reconstruction
    loop visits from [current], each followed by its recorded parent. *)
Fixpoint is_chain (par : gmap state (option state)) (current : option state)
    (l : list state) : Prop :=
  match l with
  | [] => current = None
  | x :: l' => current = Some x /\ exists p, par !! x = Some p /\ is_chain par p l'
  end.

Lemma reconstruct_chain (fuel : nat) (par : gmap state (option state))
    (current : option state) (path path' : list state) :
  reconstruct fuel par current path = Ret path' ->
  exists l, path' = path ++ l /\ is_chain par current l.
Proof.
  revert current path.
  induction fuel as [|fuel IH]; intros [c|] path; simpl; try discriminate.
  - intros [= <-]. exists []. rewrite app_nil_r. split; reflexivity.
  - destruct (par !! c) as [p|] eqn:Hp; [|discriminate].
    intros (l & -> & Hl)%IH. exists (c :: l).
    rewrite <- app_assoc. simpl. eauto.
  - intros [= <-]. exists []. rewrite app_nil_r. split; reflexivity.
Qed.

Lemma reconstruct_mono (fuel fuel' : nat) (par : gmap state (option state))
    (current : option state) (path path' : list state) :
  reconstruct fuel par current path = Ret path' -> (fuel <= fuel')%nat ->
  reconstruct fuel' par current path = Ret path'.
Proof.
  revert fuel' current path.
  induction fuel as [|fuel IH]; intros fuel' [c|] path; simpl; try discriminate.
  - intros [= <-] _. destruct fuel'; reflexivity.
  - intros Hrun Hle. destruct fuel' as [|fuel']; [lia|]. simpl.
    destruct (par !! c) as [p|]; [|discriminate]. apply IH; [exact Hrun|lia].
  - intros [= <-] _. destruct fuel'; reflexivity.
Qed.

Lemma is_chain_None (par : gmap state (option state)) (l : list state) :
  is_chain par None l -> l = [].
Proof. destruct l; [reflexivity|]. intros [[=] _]. Qed.

(** The recorded cost of a state, 0 when there is none. *)
Definition cost (st : search_state) (x : state) : Z := default 0 (g_cost st !! x).

Lemma parent_cost (st : search_state) (x p : state) :
  invariant st -> parent st !! x = Some (Some p) ->
  x ∈ succs p /\ 0 <= cost st p < cost st x.
Proof.
  intros Hinv Hp. destruct (inv_edge _ Hinv x p Hp) as (Hs & gx & gp & Hgx & Hgp & Hlt).
  unfold cost. rewrite Hgx, Hgp. auto.
Qed.

Lemma chain_facts (st : search_state) (l : list state) (x : state) :
  invariant st -> is_chain (parent st) (Some x) l ->
  head l = Some x /\ last l = Some start_state /\ NoDup l /\
  (forall y, y ∈ l -> is_Some (parent st !! y) /\ cost st y <= cost st x) /\
  (forall i a b, l !! i = Some a -> l !! S i = Some b -> a ∈ succs b).
Proof.
  intros Hinv. revert x. induction l as [|y l IH]; intros x; [intros [=]|].
  intros [[= <-] (p & Hp & Hchain)]. destruct p as [p|].
  - destruct (IH p Hchain) as (Hhead & Hlast & Hnd & Hall & Hlink).
    destruct (parent_cost st x p Hinv Hp) as [Hsucc Hcost].
    split_and!.
    + reflexivity.
    + destruct l; [discriminate|]. rewrite last_cons_cons. exact Hlast.
    + apply NoDup_cons. split; [|exact Hnd].
      intros [_ Hle]%Hall. lia.
    + intros z [->|Hz]%elem_of_cons; [split; [eauto|lia]|].
      destruct (Hall z Hz) as [Hsome Hle]. split; [exact Hsome|lia].
    + intros [|i] a b; simpl.
      * intros [= <-] Hb. rewrite <- head_lookup, Hhead in Hb.
        injection Hb as <-. exact Hsucc.
      * apply Hlink.
  - apply is_chain_None in Hchain as ->.
    rewrite (inv_root _ Hinv x Hp). split_and!.
    + reflexivity.
    + reflexivity.
    + apply NoDup_singleton.
    + intros z ->%list_elem_of_singleton. rewrite (inv_parent_start _ Hinv).
      split; [eauto|lia].
    + intros [|i] a b; simpl; [intros _ [=]|intros [=]].
Qed.

(** What a returned result promises: a path leads from the start to the
    goal by legal crossings, has no repeated state and no more states
    than were generated; the count is at least 1. *)
Definition result_sound (r : option (list state) * Z) : Prop :=
  1 <= r.2 /\
  match r.1 with
  | None => True
  | Some path =>
      head path = Some start_state /\ last path = Some goal_state /\
      (forall i s s', path !! i = Some s -> path !! S i = Some s' -> s' ∈ succs s) /\
      NoDup path /\ Z.of_nat (length path) <= r.2
  end.

Lemma invariant_count_pos (st : search_state) : invariant st -> 1 <= num_generated st.
Proof.
  intros Hinv. pose proof (inv_count _ Hinv).
  pose proof (map_size_ne_0_lookup_2 (parent st) start_state) as Hne.
  rewrite (inv_parent_start _ Hinv) in Hne. specialize (Hne (mk_is_Some _ _ eq_refl)).
  lia.
Qed.

Lemma chain_length (st : search_state) (l : list state) :
  NoDup l -> (forall y, y ∈ l -> is_Some (parent st !! y)) ->
  (length l <= size (parent st))%nat.
Proof.
  intros Hnd Hall. rewrite <- size_dom. unfold size, set_size. simpl.
  apply submseteq_length, NoDup_submseteq; [exact Hnd|].
  intros y Hy. apply elem_of_elements, elem_of_dom, Hall, Hy.
Qed.

Lemma goal_sound (fuel : nat) (st st1 : search_state) (current : state)
    (path : list state) :
  invariant st -> step st = Ret (Goal current st1) ->
  reconstruct fuel (parent st1) (Some current) [] = Ret path ->
  result_sound (Some (reverse path), num_generated st1).
Proof.
  intros Hinv Hstep Hrec.
  destruct (step_goal_invariant st st1 current Hinv Hstep) as (Hinv1 & -> & _ & _).
  apply reconstruct_chain in Hrec as (l & -> & Hchain). simpl.
  destruct (chain_facts st1 l goal_state Hinv1 Hchain)
    as (Hhead & Hlast & Hnd & Hall & Hlink).
  split; [apply invariant_count_pos, Hinv1|]. simpl. split_and!.
  - rewrite head_reverse. exact Hlast.
  - rewrite last_reverse. exact Hhead.
  - intros i s s' [Hs Hi]%reverse_lookup_Some [Hs' Hi']%reverse_lookup_Some.
    apply (Hlink (length l - S (S i))%nat); [exact Hs'|].
    replace (S (length l - S (S i))) with (length l - S i)%nat by lia. exact Hs.
  - rewrite reverse_Permutation. exact Hnd.
  - rewrite length_reverse. pose proof (inv_count _ Hinv1).
    pose proof (chain_length st1 l Hnd (fun y Hy => proj1 (Hall y Hy))). lia.
Qed.

Lemma search_loop_unfold (fuel : nat) (st : search_state) :
  search_loop fuel M_total C_total goal_state boat_capacity st
  = match step st with
    | Ret Exhausted => Ret (None, num_generated st)
    | Ret (Goal current st1) =>
        match reconstruct fuel (parent st1) (Some current) [] with
        | Ret path => Ret (Some (reverse path), num_generated st1)
        | KeyError => KeyError
        | OverflowError => OverflowError
        | OutOfFuel => OutOfFuel
        end
    | Ret (Continue st') =>
        match fuel with
        | O => OutOfFuel
        | S fuel' => search_loop fuel' M_total C_total goal_state boat_capacity st'
        end
    | KeyError => KeyError
    | OverflowError => OverflowError
    | OutOfFuel => OutOfFuel
    end.
Proof. destruct fuel; reflexivity. Qed.

Lemma search_loop_sound (fuel : nat) (st : search_state) (r : option (list state) * Z) :
  invariant st ->
  search_loop fuel M_total C_total goal_state boat_capacity st = Ret r ->
  result_sound r.
Proof.
  revert st. induction fuel as [|fuel IH]; intros st Hinv;
    rewrite search_loop_unfold;
    destruct (step st) as [[|st'|current st1]| | |] eqn:Hstep; try discriminate.
  - intros [= <-]. split; [apply invariant_count_pos, Hinv|exact I].
  - intros [= <-]. split; [apply invariant_count_pos, Hinv|exact I].
  - apply IH. eapply step_continue_invariant; eauto.
  - destruct (reconstruct (S fuel) (parent st1) (Some current) [])
      as [path| | |] eqn:Hrec; try discriminate.
    intros [= <-]. eapply goal_sound; eauto.
Qed.

(** *** Termination *)

(** The states within the totals, on either side of the river. *)
Definition bounded_states : list state :=
  ml ← range (M_total + 1);
  cl ← range (C_total + 1);
  mr ← range (M_total + 1);
  cr ← range (C_total + 1);
  [(ml, cl, mr, cr, "left"); (ml, cl, mr, cr, "right")].

Definition universe : gset state := {[start_state]} ∪ list_to_set bounded_states.

Lemma successor_in_universe (p x : state) : x ∈ succs p -> x ∈ universe.
Proof.
  intros (_ & _ & Hok & Hside)%crossing_people.
  destruct x as [[[[ml cl] mr] cr] b]. simpl in Hok, Hside.
  apply is_valid_state_true in Hok.
  unfold universe. apply elem_of_union_r, elem_of_list_to_set.
  unfold bounded_states.
  apply list_elem_of_bind. exists ml. split; [|apply elem_of_range; lia].
  apply list_elem_of_bind. exists cl. split; [|apply elem_of_range; lia].
  apply list_elem_of_bind. exists mr. split; [|apply elem_of_range; lia].
  apply list_elem_of_bind. exists cr. split; [|apply elem_of_range; lia].
  destruct Hside as [-> | ->];
    [apply list_elem_of_here|apply list_elem_of_further, list_elem_of_here].
Qed.

(** The number of moves bounds the number of successors of a state. *)
Definition branching : nat := length (get_possible_moves boat_capacity).

Lemma length_successors (s : state) : (length (succs s) <= branching)%nat.
Proof.
  rewrite get_next_states_eq_spec. unfold spec_next_states, branching.
  etrans; [apply length_filter|]. rewrite length_fmap. reflexivity.
Qed.

(** Every iteration either visits a new state of the universe or shortens
    the heap. *)
Definition measure (st : search_state) : nat :=
  (size (universe ∖ visited st) * S branching + length (open_heap st))%nat.

Lemma relax_frontier (g : Z) (current : state) (st : search_state) (nxt : state)
    (st' : search_state) :
  relax M_total C_total g current st nxt = Ret st' ->
  visited st' = visited st /\
  (length (open_heap st') <= S (length (open_heap st)))%nat.
Proof.
  intros [[_ ->]|(_ & h & _ & ->)]%relax_Ret; simpl; [split; [done|lia]|].
  unfold heappush. rewrite length_app. simpl. split; [done|lia].
Qed.

Lemma relax_all_frontier (g : Z) (current : state) (nexts : list state)
    (st st' : search_state) :
  for_each (relax M_total C_total g current) nexts st = Ret st' ->
  visited st' = visited st /\
  (length (open_heap st') <= length (open_heap st) + length nexts)%nat.
Proof.
  revert st. induction nexts as [|nxt nexts IH]; intros st Hrun.
  - injection Hrun as <-. simpl. split; [done|lia].
  - apply for_each_cons in Hrun as (st1 & Hrelax & Hrun).
    destruct (IH st1 Hrun) as [-> Hlen].
    destruct (relax_frontier g current st nxt st1 Hrelax) as [-> Hlen'].
    split; [done|]. rewrite length_cons. lia.
Qed.

Lemma size_visit (U V : gset state) (c : state) :
  c ∈ U -> c ∉ V -> (size (U ∖ ({[c]} ∪ V)) < size (U ∖ V))%nat.
Proof.
  intros HU HV. apply subset_size. split.
  - intros x. rewrite !elem_of_difference, elem_of_union. tauto.
  - intros Hsub. specialize (Hsub c). revert Hsub.
    rewrite !elem_of_difference, elem_of_union, elem_of_singleton. tauto.
Qed.

Lemma step_continue_measure (st st' : search_state) :
  invariant st -> step st = Ret (Continue st') -> (measure st' < measure st)%nat.
Proof.
  intros Hinv (f & g & current & rest & Hpop & Hcases)%step_continue_cases.
  apply heappop_elem in Hpop as (Hin & Hrest & Hlen).
  destruct Hcases as [[Hvis ->]|(Hvis & _ & Hexp)].
  - unfold measure. simpl. lia.
  - unfold measure. destruct (relax_all_frontier _ _ _ _ _ Hexp) as [-> Hheap].
    simpl in *. pose proof (length_successors current) as Hbr.
    assert (Huniv : current ∈ universe).
    { destruct (inv_heap _ Hinv f g current Hin) as (_ & [->|[p Hp]] & _).
      - apply elem_of_union_l, elem_of_singleton. reflexivity.
      - eapply successor_in_universe, Hp. }
    pose proof (size_visit universe (visited st) current Huniv Hvis) as Hsize.
    nia.
Qed.

Lemma reconstruct_total (st : search_state) (n : nat) :
  invariant st ->
  forall (x : state) (path : list state),
    is_Some (parent st !! x) -> cost st x <= Z.of_nat n ->
    exists l, reconstruct (S n) (parent st) (Some x) path = Ret (path ++ l).
Proof.
  intros Hinv. induction n as [|n IH]; intros x path [[p|] Hp] Hcost; simpl; rewrite Hp.
  - destruct (parent_cost st x p Hinv Hp). lia.
  - exists [x]. reflexivity.
  - destruct (parent_cost st x p Hinv Hp) as [_ Hlt].
    destruct (IH p (path ++ [x])) as [l Hl].
    + destruct (inv_edge _ Hinv x p Hp) as (_ & gx & gp & _ & Hgp & _).
      apply (inv_dom _ Hinv). eauto.
    + lia.
    + exists (x :: l). rewrite <- app_assoc in Hl. exact Hl.
  - exists [x]. reflexivity.
Qed.

Lemma reconstruct_outcome (fuel : nat) (par : gmap state (option state))
    (current : option state) (path : list state) :
  reconstruct fuel par current path <> OverflowError.
Proof.
  revert current path. induction fuel as [|fuel IH]; intros [c|] path; simpl;
    try discriminate.
  destruct (par !! c); [apply IH|discriminate].
Qed.

Lemma search_loop_mono (fuel fuel' : nat) (st : search_state)
    (r : option (list state) * Z) :
  search_loop fuel M_total C_total goal_state boat_capacity st = Ret r ->
  (fuel <= fuel')%nat ->
  search_loop fuel' M_total C_total goal_state boat_capacity st = Ret r.
Proof.
  revert fuel' st. induction fuel as [|fuel IH]; intros fuel' st;
    rewrite !search_loop_unfold;
    destruct (step st) as [[|st'|current st1]| | |] eqn:Hstep; try discriminate; auto.
  - intros Hrun Hle. destruct fuel' as [|fuel']; [lia|]. apply IH; [exact Hrun|lia].
  - destruct (reconstruct (S fuel) (parent st1) (Some current) [])
      as [path| | |] eqn:Hrec; try discriminate.
    intros Hrun Hle. rewrite (reconstruct_mono _ fuel' _ _ _ _ Hrec Hle). exact Hrun.
Qed.

(** The loop ends: with enough fuel it returns, or it leaves with the
    [OverflowError] of a [heuristic] call. *)
Lemma search_loop_total (m : nat) (st : search_state) :
  invariant st -> (measure st <= m)%nat ->
  exists (fuel0 : nat) (res : outcome (option (list state) * Z)),
    returns_or_overflows res /\
    forall fuel, (fuel0 <= fuel)%nat ->
      search_loop fuel M_total C_total goal_state boat_capacity st = res.
Proof.
  revert st. induction m as [|m IH]; intros st Hinv Hm;
    pose proof (step_outcome st) as Hout;
    destruct (step st) as [[|st'|current st1]| | |] eqn:Hstep;
    try (destruct Hout as [[=]|[? [=]]]; fail).
  1, 5: exists 0%nat, (Ret (None, num_generated st));
    (split; [right; eexists; reflexivity|]); intros fuel _;
    rewrite search_loop_unfold, Hstep; reflexivity.
  3, 6: exists 0%nat, OverflowError; (split; [left; reflexivity|]); intros fuel _;
    rewrite search_loop_unfold, Hstep; reflexivity.
  1: pose proof (step_continue_measure st st' Hinv Hstep); lia.
  2: { destruct (IH st') as (fuel0 & res & Hres & Hrun).
       - eapply step_continue_invariant; eauto.
       - pose proof (step_continue_measure st st' Hinv Hstep). lia.
       - exists (S fuel0), res. split; [exact Hres|]. intros [|fuel] Hle; [lia|].
         rewrite search_loop_unfold, Hstep. apply Hrun. lia. }
  all: destruct (step_goal_invariant st st1 current Hinv Hstep) as (Hinv1 & _ & Hsome & _);
    destruct (reconstruct_total st1 (Z.to_nat (cost st1 current)) Hinv1 current []
                Hsome ltac:(lia)) as [l Hl];
    exists (S (Z.to_nat (cost st1 current))),
           (Ret (Some (reverse l), num_generated st1));
    (split; [right; eexists; reflexivity|]);
    intros fuel Hle; rewrite search_loop_unfold, Hstep;
    rewrite (reconstruct_mono _ fuel _ _ _ _ Hl Hle); reflexivity.
Qed.

(** *** Totals within the exact range of the floats

    Every successor passes [is_valid_state], so its left bank holds at
    most [M_total + C_total] people: when that is at most [2^53] no call
    of [heuristic] in the loop raises. *)

Lemma relax_in_range (g : Z) (current : state) (st : search_state) (nxt : state) :
  M_total + C_total <= 2 ^ 53 -> nxt ∈ succs current ->
  exists st', relax M_total C_total g current st nxt = Ret st'.
Proof.
  intros Htotal Hnxt. unfold relax. cbv zeta.
  rewrite (heuristic_exact nxt M_total C_total)
    by (eapply successor_float_exact; eauto).
  destruct (match g_cost st !! nxt with
            | Some c => g + 1 <? c
            | None => true
            end); eexists; reflexivity.
Qed.

Lemma relax_all_in_range (g : Z) (current : state) (nexts : list state)
    (st : search_state) :
  M_total + C_total <= 2 ^ 53 ->
  (forall nxt, nxt ∈ nexts -> nxt ∈ succs current) ->
  exists st', for_each (relax M_total C_total g current) nexts st = Ret st'.
Proof.
  intros Htotal. revert st. induction nexts as [|nxt nexts IH]; intros st Hsub.
  - eexists. reflexivity.
  - destruct (relax_in_range g current st nxt Htotal) as [st1 Hrelax];
      [apply Hsub, list_elem_of_here|].
    destruct (IH st1) as [st' Hrun];
      [intros x Hx; apply Hsub, list_elem_of_further, Hx|].
    exists st'. cbn [for_each]. rewrite Hrelax. exact Hrun.
Qed.

Lemma step_in_range (st : search_state) :
  M_total + C_total <= 2 ^ 53 -> step st <> OverflowError.
Proof.
  intros Htotal. unfold search_step.
  destruct (heappop (open_heap st)) as [[[[f g] cur] rest]|]; [|discriminate].
  destruct (decide (cur ∈ visited st)); [discriminate|].
  destruct (decide (cur = goal_state)); [discriminate|]. cbv zeta.
  unfold expand.
  destruct (relax_all_in_range g cur (succs cur)
              {| open_heap := rest; g_cost := g_cost st; parent := parent st;
                 visited := {[cur]} ∪ visited st;
                 num_generated := num_generated st |} Htotal (fun _ H => H))
    as [st' ->].
  discriminate.
Qed.

Lemma search_loop_in_range (fuel : nat) (st : search_state) :
  M_total + C_total <= 2 ^ 53 ->
  search_loop fuel M_total C_total goal_state boat_capacity st <> OverflowError.
Proof.
  intros Htotal. revert st. induction fuel as [|fuel IH]; intros st;
    rewrite search_loop_unfold; pose proof (step_in_range st Htotal) as Hstep;
    destruct (step st) as [[|st'|current st1]| | |];
    try discriminate; try congruence; try apply IH.
  all: match goal with
       | |- context [reconstruct ?n ?par ?c ?p] =>
           pose proof (reconstruct_outcome n par c p) as Hrec;
           destruct (reconstruct n par c p); try discriminate; congruence
       end.
Qed.

(** *** The run as a sequence of iterations *)

Local Abbreviation iter := (iterates M_total C_total goal_state boat_capacity).

Lemma nsteps_invariant (k : nat) (st st' : search_state) :
  invariant st -> nsteps iter k st st' -> invariant st'.
Proof.
  intros Hinv Hsteps. induction Hsteps as [|k st st' st'' Hstep _ IH]; [exact Hinv|].
  apply IH. eapply step_continue_invariant; eauto.
Qed.

Lemma search_loop_steps (k fuel : nat) (st st' : search_state) :
  nsteps iter k st st' ->
  search_loop (k + fuel) M_total C_total goal_state boat_capacity st
  = search_loop fuel M_total C_total goal_state boat_capacity st'.
Proof.
  induction 1 as [|k st st' st'' Hstep _ IH]; [reflexivity|].
  rewrite <- IH. change (S k + fuel)%nat with (S (k + fuel)).
  rewrite (search_loop_unfold (S (k + fuel))). unfold iterates in Hstep.
  rewrite Hstep. reflexivity.
Qed.


Lemma step_exhausted (st : search_state) :
  step st = Ret Exhausted <-> open_heap st = [].
Proof.
  unfold search_step. rewrite <- heappop_None.
  destruct (heappop (open_heap st)) as [[[[f g] cur] rest]|]; [|done].
  destruct (decide (cur ∈ visited st)); [done|].
  destruct (decide (cur = goal_state)); [done|]. cbv zeta.
  destruct (expand _ _ _ _ _ _) as [st'| | |]; done.
Qed.




End Search.

(** ** [astar_search] as a whole *)

Lemma initial_state_outcome (M_total C_total : Z) (start_state : state) :
  returns_or_overflows (initial_state M_total C_total start_state).
Proof.
  unfold initial_state.
  destruct (heuristic_outcome start_state M_total C_total) as [->|[h ->]]; simpl;
    [left; reflexivity|right; eexists; reflexivity].
Qed.

Lemma initial_state_exact (M_total C_total : Z) (start_state : state) :
  float_exact (people_left start_state) ->
  exists st0, initial_state M_total C_total start_state = Ret st0.
Proof.
  intros Hstart. unfold initial_state.
  rewrite (heuristic_exact _ _ _ Hstart). eexists. reflexivity.
Qed.

Lemma astar_search_Ret (fuel : nat) (M_total C_total : Z) (start_state goal_state : state)
    (boat_capacity : Z) (r : option (list state) * Z) :
  astar_search fuel M_total C_total start_state goal_state boat_capacity = Ret r ->
  exists st0,
    initial_state M_total C_total start_state = Ret st0 /\
    search_loop fuel M_total C_total goal_state boat_capacity st0 = Ret r.
Proof.
  unfold astar_search.
  destruct (initial_state M_total C_total start_state) as [st0| | |]; simpl;
    try discriminate.
  eauto.
Qed.

Lemma astar_search_entered (fuel : nat) (M_total C_total : Z)
    (start_state goal_state : state) (boat_capacity : Z) (st0 : search_state) :
  initial_state M_total C_total start_state = Ret st0 ->
  astar_search fuel M_total C_total start_state goal_state boat_capacity
  = search_loop fuel M_total C_total goal_state boat_capacity st0.
Proof. unfold astar_search. intros ->. reflexivity. Qed.

Lemma astar_search_sound (fuel : nat) (M_total C_total : Z) (start_state goal_state : state)
    (boat_capacity : Z) (r : option (list state) * Z) :
  astar_search fuel M_total C_total start_state goal_state boat_capacity = Ret r ->
  result_sound M_total C_total boat_capacity start_state goal_state r.
Proof.
  intros (st0 & Hinit & Hrun)%astar_search_Ret.
  eapply search_loop_sound; [|exact Hrun].
  eapply initial_state_invariant, Hinit.
Qed.

Lemma astar_search_mono (fuel fuel' : nat) (M_total C_total : Z)
    (start_state goal_state : state) (boat_capacity : Z) (r : option (list state) * Z) :
  astar_search fuel M_total C_total start_state goal_state boat_capacity = Ret r ->
  (fuel <= fuel')%nat ->
  astar_search fuel' M_total C_total start_state goal_state boat_capacity = Ret r.
Proof.
  intros (st0 & Hinit & Hrun)%astar_search_Ret Hle.
  rewrite (astar_search_entered _ _ _ _ _ _ _ Hinit).
  eapply search_loop_mono; eauto.
Qed.

(** The search ends on every instance: it returns, or it leaves with
    the [OverflowError] of a [heuristic] call. *)
Lemma astar_search_total (M_total C_total : Z) (start_state goal_state : state)
    (boat_capacity : Z) :
  exists (fuel0 : nat) (res : outcome (option (list state) * Z)),
    returns_or_overflows res /\
    forall fuel, (fuel0 <= fuel)%nat ->
      astar_search fuel M_total C_total start_state goal_state boat_capacity = res.
Proof.
  destruct (initial_state_outcome M_total C_total start_state) as [Hinit|[st0 Hinit]].
  - exists 0%nat, OverflowError. split; [left; reflexivity|].
    intros fuel _. unfold astar_search. rewrite Hinit. reflexivity.
  - destruct (search_loop_total M_total C_total boat_capacity start_state goal_state
                _ st0 (initial_state_invariant _ _ boat_capacity _ _ Hinit)
                (Nat.le_refl _)) as (fuel0 & res & Hres & Hrun).
    exists fuel0, res. split; [exact Hres|]. intros fuel Hle.
    rewrite (astar_search_entered _ _ _ _ _ _ _ Hinit). apply Hrun, Hle.
Qed.

(** It returns when the people on the left bank of the start and the
    totals are within the exact range of the floats. *)
Lemma astar_search_in_range (M_total C_total : Z) (start_state goal_state : state)
    (boat_capacity : Z) :
  float_exact (people_left start_state) -> M_total + C_total <= 2 ^ 53 ->
  exists (fuel0 : nat) (r : option (list state) * Z),
    forall fuel, (fuel0 <= fuel)%nat ->
      astar_search fuel M_total C_total start_state goal_state boat_capacity = Ret r.
Proof.
  intros Hstart Htotal.
  destruct (initial_state_exact M_total C_total start_state Hstart) as [st0 Hinit].
  destruct (search_loop_total M_total C_total boat_capacity start_state goal_state
              _ st0 (initial_state_invariant _ _ boat_capacity _ _ Hinit)
              (Nat.le_refl _)) as (fuel0 & res & [->|[r ->]] & Hrun).
  - destruct (search_loop_in_range M_total C_total boat_capacity goal_state
                fuel0 st0 Htotal (Hrun fuel0 (Nat.le_refl _))).
  - exists fuel0, r. intros fuel Hle.
    rewrite (astar_search_entered _ _ _ _ _ _ _ Hinit). apply Hrun, Hle.
Qed.

Lemma astar_search_deterministic (fuel fuel' : nat) (M_total C_total : Z)
    (start_state goal_state : state) (boat_capacity : Z)
    (r r' : option (list state) * Z) :
  astar_search fuel M_total C_total start_state goal_state boat_capacity = Ret r ->
  astar_search fuel' M_total C_total start_state goal_state boat_capacity = Ret r' ->
  r = r'.
Proof.
  intros Hr Hr'. destruct (Nat.le_ge_cases fuel fuel') as [Hle|Hle].
  - rewrite (astar_search_mono _ _ _ _ _ _ _ _ Hr Hle) in Hr'. congruence.
  - rewrite (astar_search_mono _ _ _ _ _ _ _ _ Hr' Hle) in Hr. congruence.
Qed.

Ltac iteration :=
  eapply nsteps_l; [unfold iterates; vm_compute; reflexivity|].

(** ** The frontier along a run *)

Lemma frontier_entries (M_total C_total : Z) (start_state goal_state : state)
    (boat_capacity : Z) (k : nat) (st0 st : search_state) (f g : Z) (s : state) :
  initial_state M_total C_total start_state = Ret st0 ->
  nsteps (iterates M_total C_total goal_state boat_capacity) k st0 st ->
  (f, g, s) ∈ open_heap st ->
  exists h : Z, heuristic s M_total C_total = Ret h /\ f = g + h.
Proof.
  intros Hinit Hsteps Hin.
  pose proof (nsteps_invariant M_total C_total boat_capacity start_state goal_state
                k _ _
                (initial_state_invariant M_total C_total boat_capacity start_state
                   st0 Hinit)
                Hsteps) as Hinv.
  destruct (inv_heap _ _ _ _ _ Hinv f g s Hin) as (Hf & _).
  exists (f - g). split; [exact Hf|lia].
Qed.

(** C6 (amended): every pop of the frontier returns an entry that is
    least for Python's order on the [(f, g, state)] tuples: its [f] is
    the least of the frontier, among the entries of that [f] its [g] is
    the least, and among those its state tuple is the least.  The order
    in which the entries were pushed plays no part.  Along a run every
    entry of the frontier has [f = g + h], [h] being the value that
    [heuristic] returns on the state of the entry. *)
Theorem heappop_least :
  (forall (e : entry) (heap : list entry),
    exists (f g : Z) (s : state) (rest : list entry),
      heappop (e :: heap) = Some ((f, g, s), rest) /\
      e :: heap ≡ₚ (f, g, s) :: rest /\
      forall (f' g' : Z) (s' : state),
        (f', g', s') ∈ e :: heap ->
        f < f' \/ (f = f' /\ (g < g' \/ (g = g' /\ state_compare s s' <> Gt)))) /\
  (forall (M_total C_total : Z) (start_state goal_state : state) (boat_capacity : Z)
          (k : nat) (st0 st : search_state) (f g : Z) (s : state),
      initial_state M_total C_total start_state = Ret st0 ->
      nsteps (iterates M_total C_total goal_state boat_capacity) k st0 st ->
      (f, g, s) ∈ open_heap st ->
      exists h : Z, heuristic s M_total C_total = Ret h /\ f = g + h).
Proof.
  split; [|apply frontier_entries].
  intros e heap.
  destruct (heappop (e :: heap)) as [[[[f g] s] rest]|] eqn:Hpop;
    [|discriminate].
  exists f, g, s, rest. split; [reflexivity|].
  apply heappop_spec in Hpop as [Hperm Hle]. split; [exact Hperm|].
  intros f' g' s' Hin. apply entry_le_components, Hle, Hin.
Qed.

(** C6, an instance: the frontier after the first iteration of the run
    on two missionaries, two cannibals and a boat for two. *)
Lemma heappop_least_witness :
  exists st : search_state,
    open_heap st = [ (3, 1, (2, 1, 0, 1, "right"));
                     (2, 1, (2, 0, 0, 2, "right"));
                     (2, 1, (1, 1, 1, 1, "right"));
                     (2, 1, (0, 2, 2, 0, "right")) ] /\
    exists h : Z, heuristic (2, 1, 0, 1, "right") 2 2 = Ret h /\ 3 = 1 + h.
Proof.
  destruct heappop_least as [_ Hrun].
  assert (Hsteps : exists st0 st,
             initial_state 2 2 (2, 2, 0, 0, "left") = Ret st0 /\
             nsteps (iterates 2 2 (goal_of 2 2) 2) 1 st0 st /\
             open_heap st = [ (3, 1, (2, 1, 0, 1, "right"));
                              (2, 1, (2, 0, 0, 2, "right"));
                              (2, 1, (1, 1, 1, 1, "right"));
                              (2, 1, (0, 2, 2, 0, "right")) ]).
  { eexists _, _. split; [vm_compute; reflexivity|].
    split; [iteration; apply nsteps_O|]. reflexivity. }
  destruct Hsteps as (st0 & st & Hinit & Hsteps & Hheap).
  exists st. split; [exact Hheap|].
  apply (Hrun 2 2 (2, 2, 0, 0, "left") (goal_of 2 2) 2 1%nat st0 st 3 1
           (2, 1, 0, 1, "right") Hinit Hsteps).
  rewrite Hheap. apply list_elem_of_here.
Defined.

(** C6: in the run on two missionaries, two cannibals and a boat for two,
    the first expansion pushes four entries, three of them with [f = 2]
    and [g = 1]; the next pop returns the one pushed last. *)
Lemma frontier_pop_is_not_stable :
  exists st0 st : search_state,
    initial_state 2 2 (2, 2, 0, 0, "left") = Ret st0 /\
    search_step 2 2 (goal_of 2 2) 2 st0 = Ret (Continue st) /\
    open_heap st = [ (3, 1, (2, 1, 0, 1, "right"));
                     (2, 1, (2, 0, 0, 2, "right"));
                     (2, 1, (1, 1, 1, 1, "right"));
                     (2, 1, (0, 2, 2, 0, "right")) ] /\
    heappop (open_heap st)
      = Some ((2, 1, (0, 2, 2, 0, "right")),
              [ (3, 1, (2, 1, 0, 1, "right"));
                (2, 1, (2, 0, 0, 2, "right"));
                (2, 1, (1, 1, 1, 1, "right")) ]).
Proof.
  eexists _, _. split; [vm_compute; reflexivity|].
  split; [vm_compute; reflexivity|]. split; vm_compute; reflexivity.
Qed.



(** ** The solver *)

Lemma solve_mono (fuel fuel' : nat) (M_total C_total boat_capacity : Z)
    (M_left C_left M_right C_right : option Z) (boat_position : string) (r : report) :
  solve_missionaries_cannibals fuel M_total C_total boat_capacity
    M_left C_left M_right C_right boat_position = Ret r ->
  (fuel <= fuel')%nat ->
  solve_missionaries_cannibals fuel' M_total C_total boat_capacity
    M_left C_left M_right C_right boat_position = Ret r.
Proof.
  unfold solve_missionaries_cannibals. intros Hrun Hle.
  destruct (astar_search fuel _ _ _ _ _) as [res| | |] eqn:Hsearch; try discriminate.
  rewrite (astar_search_mono _ _ _ _ _ _ _ _ Hsearch Hle). exact Hrun.
Qed.

(** A property of the start that every crossing preserves holds of every
    state of a path built from crossings. *)
Lemma path_states (M_total C_total boat_capacity : Z) (P : state -> Prop)
    (start_state : state) (path : list state) :
  head path = Some start_state ->
  (forall i s s', path !! i = Some s -> path !! S i = Some s' ->
                  s' ∈ get_next_states s M_total C_total boat_capacity) ->
  P start_state ->
  (forall s s', P s -> s' ∈ get_next_states s M_total C_total boat_capacity -> P s') ->
  forall s, s ∈ path -> P s.
Proof.
  intros Hhead Hlink Hstart Hstep s [i Hi]%list_elem_of_lookup. revert s Hi.
  induction i as [|i IH]; intros s Hi.
  - rewrite <- head_lookup, Hhead in Hi. injection Hi as <-. exact Hstart.
  - destruct (path !! i) as [s0|] eqn:Hs0.
    + eapply Hstep; [apply IH; reflexivity|]. eapply Hlink; eauto.
    + apply lookup_ge_None in Hs0. apply lookup_lt_Some in Hi. lia.
Qed.

Lemma same_people_refl (s : state) : same_people s s.
Proof. destruct s as [[[[? ?] ?] ?] ?]. simpl. lia. Qed.

Lemma same_people_trans (s t u : state) :
  same_people s t -> same_people t u -> same_people s u.
Proof.
  destruct s as [[[[? ?] ?] ?] ?], t as [[[[? ?] ?] ?] ?], u as [[[[? ?] ?] ?] ?].
  simpl. lia.
Qed.

(** C10: when the start state passes [is_valid_state], every state of a
    path returned by [astar_search] passes it too and holds as many
    missionaries and as many cannibals, both banks together, as the start
    state. *)
Theorem path_states_valid :
  forall (fuel : nat) (M_total C_total : Z) (start_state goal_state : state)
         (boat_capacity : Z) (path : list state) (n : Z),
    state_ok M_total C_total start_state = true ->
    astar_search fuel M_total C_total start_state goal_state boat_capacity
      = Ret (Some path, n) ->
    forall s, s ∈ path ->
      state_ok M_total C_total s = true /\ same_people start_state s.
Proof.
  intros fuel M_total C_total start_state goal_state boat_capacity path n Hok Hrun.
  destruct (astar_search_sound _ _ _ _ _ _ _ Hrun) as (_ & Hhead & _ & Hlink & _).
  apply (path_states M_total C_total boat_capacity
           (fun s => state_ok M_total C_total s = true /\ same_people start_state s)
           start_state path Hhead Hlink).
  - split; [exact Hok|apply same_people_refl].
  - intros s s' [_ Hsame] (_ & Hcross & Hok' & _)%crossing_people.
    split; [exact Hok'|]. eapply same_people_trans; eauto.
Qed.

(** C10, an instance: two missionaries, two cannibals, a boat for two;
    the third state of the path. *)
Lemma path_states_valid_witness :
  state_ok 2 2 (2, 2, 0, 0, "left") = true /\
  state_ok 2 2 (2, 1, 0, 1, "left") = true /\
  same_people (2, 2, 0, 0, "left") (2, 1, 0, 1, "left").
Proof.
  split; [reflexivity|].
  apply (path_states_valid 20 2 2 (2, 2, 0, 0, "left") (goal_of 2 2) 2
           [ (2, 2, 0, 0, "left"); (1, 1, 1, 1, "right"); (2, 1, 0, 1, "left");
             (0, 1, 2, 1, "right"); (0, 2, 2, 0, "left"); (0, 0, 2, 2, "right") ] 10).
  - reflexivity.
  - vm_compute. reflexivity.
  - apply (bool_decide_unpack _). vm_compute. exact I.
Defined.

(** C9: the count [astar_search] returns is at least the length of
    the path when there is one, and at least 1 when there is none.  The
    search ends on every instance, by returning or with the
    [OverflowError] of a [heuristic] call, and it returns whenever the
    people on the left bank of the start and the totals are at most
    [2^53]. *)
Theorem states_generated_bounds :
  forall (M_total C_total : Z) (start_state goal_state : state) (boat_capacity : Z),
    (exists (fuel0 : nat) (res : outcome (option (list state) * Z)),
        (res = OverflowError \/ exists r, res = Ret r) /\
        forall fuel, (fuel0 <= fuel)%nat ->
          astar_search fuel M_total C_total start_state goal_state boat_capacity = res) /\
    (float_exact (people_left start_state) -> M_total + C_total <= 2 ^ 53 ->
     exists (fuel0 : nat) (r : option (list state) * Z),
       forall fuel, (fuel0 <= fuel)%nat ->
         astar_search fuel M_total C_total start_state goal_state boat_capacity = Ret r) /\
    (forall (fuel : nat) (path : list state) (n : Z),
        astar_search fuel M_total C_total start_state goal_state boat_capacity
          = Ret (Some path, n) ->
        Z.of_nat (length path) <= n) /\
    (forall (fuel : nat) (n : Z),
        astar_search fuel M_total C_total start_state goal_state boat_capacity
          = Ret (None, n) ->
        1 <= n).
Proof.
  intros M_total C_total start_state goal_state boat_capacity. split_and!.
  - apply astar_search_total.
  - apply astar_search_in_range.
  - intros fuel path n Hrun.
    destruct (astar_search_sound _ _ _ _ _ _ _ Hrun) as (_ & _ & _ & _ & _ & Hlen).
    exact Hlen.
  - intros fuel n Hrun.
    destruct (astar_search_sound _ _ _ _ _ _ _ Hrun) as (Hpos & _). exact Hpos.
Qed.

(** C9, two instances: a boat for two finds a path of six states among
    ten generated; a boat for one and three of each finds none and
    generates two states. *)
Lemma states_generated_bounds_witness :
  Z.of_nat 6 <= 10 /\ 1 <= 2.
Proof.
  split.
  - apply (proj1 (proj2 (proj2
             (states_generated_bounds 2 2 (2, 2, 0, 0, "left") (goal_of 2 2) 2)))
             20%nat
             [ (2, 2, 0, 0, "left"); (1, 1, 1, 1, "right"); (2, 1, 0, 1, "left");
               (0, 1, 2, 1, "right"); (0, 2, 2, 0, "left"); (0, 0, 2, 2, "right") ]).
    vm_compute. reflexivity.
  - apply (proj2 (proj2 (proj2
             (states_generated_bounds 3 3 (3, 3, 0, 0, "left") (goal_of 3 3) 1)))
             5%nat).
    vm_compute. reflexivity.
Defined.

(** C8: when the heap is empty after some iterations none of which
    popped the goal, [astar_search] returns [None] with the number of
    states generated so far; and whenever the search returns [None] with
    a count, [solve_missionaries_cannibals] returns the report with
    output [None] and that count: no error is raised. *)
Theorem exhausted_frontier_no_path :
  (forall (M_total C_total : Z) (start_state goal_state : state) (boat_capacity : Z)
          (k : nat) (st0 st : search_state) (fuel : nat),
      initial_state M_total C_total start_state = Ret st0 ->
      nsteps (iterates M_total C_total goal_state boat_capacity) k st0 st ->
      open_heap st = [] ->
      (k <= fuel)%nat ->
      astar_search fuel M_total C_total start_state goal_state boat_capacity
        = Ret (None, num_generated st)) /\
  (forall (fuel : nat) (M_total C_total boat_capacity : Z)
          (M_left C_left M_right C_right : option Z) (boat_position : string) (n : Z),
      astar_search fuel M_total C_total
        (default M_total M_left, default C_total C_left,
         default 0 M_right, default 0 C_right, boat_position)
        (0, 0, M_total, C_total, "right") boat_capacity = Ret (None, n) ->
      solve_missionaries_cannibals fuel M_total C_total boat_capacity
        M_left C_left M_right C_right boat_position
        = Ret {| output := None; number_of_states := n |}).
Proof.
  split.
  - intros M_total C_total start_state goal_state boat_capacity k st0 st fuel
      Hinit Hsteps Hheap Hle.
    rewrite (astar_search_entered _ _ _ _ _ _ _ Hinit).
    replace fuel with (k + (fuel - k))%nat by lia.
    rewrite (search_loop_steps _ _ _ _ _ _ _ _ Hsteps), search_loop_unfold.
    rewrite (proj2 (step_exhausted M_total C_total boat_capacity goal_state st) Hheap).
    reflexivity.
  - intros fuel M_total C_total boat_capacity M_left C_left M_right C_right
      boat_position n Hrun.
    unfold solve_missionaries_cannibals. rewrite Hrun. reflexivity.
Qed.

(** C8, an instance: three missionaries, three cannibals and a boat for
    one; the heap is empty after two iterations. *)
Lemma exhausted_frontier_no_path_witness :
  astar_search 2 3 3 (3, 3, 0, 0, "left") (0, 0, 3, 3, "right") 1 = Ret (None, 2) /\
  solve_missionaries_cannibals 2 3 3 1 None None None None "left"
    = Ret {| output := None; number_of_states := 2 |}.
Proof.
  destruct exhausted_frontier_no_path as [Hsearch Hsolve].
  assert (Hsteps : exists st0 st,
             initial_state 3 3 (3, 3, 0, 0, "left") = Ret st0 /\
             nsteps (iterates 3 3 (0, 0, 3, 3, "right") 1) 2 st0 st /\
             open_heap st = [] /\ num_generated st = 2).
  { eexists _, _. split; [vm_compute; reflexivity|].
    split; [iteration; iteration; apply nsteps_O|]. split; reflexivity. }
  destruct Hsteps as (st0 & st & Hinit & Hsteps & Hheap & Hnum).
  assert (Hrun : astar_search 2 3 3 (3, 3, 0, 0, "left") (0, 0, 3, 3, "right") 1
                 = Ret (None, 2)).
  { rewrite <- Hnum.
    apply (Hsearch 3 3 (3, 3, 0, 0, "left") (0, 0, 3, 3, "right") 1 2%nat st0 st 2%nat
             Hinit Hsteps Hheap).
    lia. }
  split; [exact Hrun|].
  apply (Hsolve 2%nat 3 3 1 None None None None "left" 2 Hrun).
Defined.

(** C2 (amended): on two missionaries, two cannibals and a boat for two,
    from the default start with everybody on the left bank, the solver
    returns a solution of six states, indexed 0 to 5, whose last state is
    [(0, 0, 2, 2, "right")]; ten states are generated. *)
Theorem solve_two_two_two :
  forall fuel : nat,
    (20 <= fuel)%nat ->
    solve_missionaries_cannibals fuel 2 2 2 None None None None "left"
    = Ret {| output := Some
               [ ("0", Row 2 2 0 0 "left");
                 ("1", Row 1 1 1 1 "right");
                 ("2", Row 2 1 0 1 "left");
                 ("3", Row 0 1 2 1 "right");
                 ("4", Row 0 2 2 0 "left");
                 ("5", Row 0 0 2 2 "right") ];
             number_of_states := 10 |}.
Proof.
  intros fuel Hle. apply (solve_mono 20 fuel); [|exact Hle].
  vm_compute. reflexivity.
Qed.

(** C2, an instance of the amended claim. *)
Lemma solve_two_two_two_witness :
  solve_missionaries_cannibals 25 2 2 2 None None None None "left"
  = Ret {| output := Some
             [ ("0", Row 2 2 0 0 "left");
               ("1", Row 1 1 1 1 "right");
               ("2", Row 2 1 0 1 "left");
               ("3", Row 0 1 2 1 "right");
               ("4", Row 0 2 2 0 "left");
               ("5", Row 0 0 2 2 "right") ];
           number_of_states := 10 |}.
Proof. apply (solve_two_two_two 25). lia. Defined.

(** C2: the solution the solver returns on that instance has six states,
    not five. *)
Lemma solution_has_six_states :
  exists rows : list (string * row),
    solve_missionaries_cannibals 20 2 2 2 None None None None "left"
    = Ret {| output := Some rows; number_of_states := 10 |} /\
    length rows = 6%nat /\
    length rows <> 5%nat /\
    last rows = Some ("5", Row 0 0 2 2 "right").
Proof.
  eexists. split; [vm_compute; reflexivity|].
  split; [reflexivity|]. split; [discriminate|reflexivity].
Qed.

(** ** Parameters are not validated *)


Lemma search_step_initial (M_total C_total : Z) (start_state goal_state : state)
    (boat_capacity : Z) (st0 : search_state) :
  initial_state M_total C_total start_state = Ret st0 ->
  search_step M_total C_total goal_state boat_capacity st0
  = let st1 := {| open_heap := []; g_cost := {[ start_state := 0 ]};
                  parent := {[ start_state := None ]};
                  visited := {[start_state]} ∪ ∅; num_generated := 1 |} in
    if decide (start_state = goal_state) then Ret (Goal start_state st1)
    else st' ← expand M_total C_total boat_capacity 0 start_state st1;
         Ret (Continue st').
Proof.
  intros (h & _ & ->)%initial_state_Ret.
  unfold search_step, heappop. cbn [app heap_min remove_one
    open_heap g_cost parent visited num_generated].
  rewrite (decide_False (P := start_state ∈ ∅)) by apply not_elem_of_empty.
  rewrite !(decide_True (P := _ = (h, 0, start_state))) by reflexivity.
  reflexivity.
Qed.

Lemma reconstruct_start (fuel : nat) (start_state : state) (path : list state) :
  reconstruct (S fuel) {[ start_state := None ]} (Some start_state) path
  = Ret (path ++ [start_state]).
Proof.
  cbn [reconstruct]. rewrite lookup_singleton_eq. destruct fuel; reflexivity.
Qed.

(** A search whose start state is the goal. *)
Lemma astar_search_at_goal (fuel : nat) (M_total C_total : Z) (s : state)
    (boat_capacity : Z) (h : Z) :
  heuristic s M_total C_total = Ret h ->
  astar_search (S fuel) M_total C_total s s boat_capacity = Ret (Some [s], 1).
Proof.
  intros Hh. unfold astar_search, initial_state. rewrite Hh. cbn [mbind outcome_bind].
  rewrite search_loop_unfold.
  rewrite (search_step_initial M_total C_total s s boat_capacity _)
    by (unfold initial_state; rewrite Hh; reflexivity).
  cbv zeta. rewrite decide_True by reflexivity. cbn [parent].
  rewrite reconstruct_start. reflexivity.
Qed.

(** A search whose start state is not the goal and has no successor. *)
Lemma astar_search_dead_end (fuel : nat) (M_total C_total : Z)
    (start_state goal_state : state) (boat_capacity : Z) (h : Z) :
  heuristic start_state M_total C_total = Ret h ->
  get_next_states start_state M_total C_total boat_capacity = [] ->
  start_state <> goal_state ->
  astar_search (S fuel) M_total C_total start_state goal_state boat_capacity
  = Ret (None, 1).
Proof.
  intros Hh Hnil Hne. unfold astar_search, initial_state. rewrite Hh.
  cbn [mbind outcome_bind]. rewrite search_loop_unfold.
  rewrite (search_step_initial M_total C_total start_state goal_state boat_capacity _)
    by (unfold initial_state; rewrite Hh; reflexivity).
  cbv zeta. rewrite decide_False by exact Hne. unfold expand. rewrite Hnil.
  cbn [for_each mbind outcome_bind]. rewrite search_loop_unfold.
  rewrite (proj2 (step_exhausted _ _ _ _ _)) by reflexivity. reflexivity.
Qed.

(** A search whose start state holds more people on its left bank than
    a float can hold. *)
Lemma astar_search_overflow (fuel : nat) (M_total C_total : Z)
    (start_state goal_state : state) (boat_capacity : Z) :
  heuristic start_state M_total C_total = OverflowError ->
  astar_search fuel M_total C_total start_state goal_state boat_capacity
  = OverflowError.
Proof. intros Hh. unfold astar_search, initial_state. rewrite Hh. reflexivity. Qed.





(** * Further properties of the successor generator *)

(** The state seen from the other bank. *)
Definition mirror (s : state) : state :=
  let '(M_left, C_left, M_right, C_right, boat_pos) := s in
  (M_right, C_right, M_left, C_left,
   if String.eqb boat_pos "left" then "right" else "left").

(** The boat is on a bank. *)
Definition boat_on_bank (s : state) : Prop := s.2 = "left" \/ s.2 = "right".

Lemma is_valid_state_swap (M_left C_left M_right C_right M_total C_total : Z) :
  is_valid_state M_right C_right M_left C_left M_total C_total
  = is_valid_state M_left C_left M_right C_right M_total C_total.
Proof.
  apply Bool.eq_iff_eq_true. rewrite !is_valid_state_true. lia.
Qed.

Lemma state_ok_mirror (M_total C_total : Z) (s : state) :
  state_ok M_total C_total (mirror s) = state_ok M_total C_total s.
Proof. destruct s as [[[[? ?] ?] ?] ?]. apply is_valid_state_swap. Qed.

Lemma filter_fmap_mirror (M_total C_total : Z) (l : list state) :
  filter (fun s' => state_ok M_total C_total s' = true) (mirror <$> l)
  = mirror <$> filter (fun s' => state_ok M_total C_total s' = true) l.
Proof.
  induction l as [|s l IH]; [reflexivity|].
  rewrite fmap_cons, !filter_cons, IH, state_ok_mirror.
  destruct (decide (state_ok M_total C_total s = true)); reflexivity.
Qed.

(** X1: the puzzle is symmetric in the two banks.  [is_valid_state]
    gives the same verdict when the banks are exchanged, and the
    successors of the mirror image of a state are, in the same order, the
    mirror images of its successors. *)
Theorem get_next_states_mirror :
  forall (M_left C_left M_right C_right M_total C_total boat_capacity : Z)
         (boat_pos : string),
    is_valid_state M_right C_right M_left C_left M_total C_total
    = is_valid_state M_left C_left M_right C_right M_total C_total /\
    get_next_states (mirror (M_left, C_left, M_right, C_right, boat_pos))
                    M_total C_total boat_capacity
    = mirror <$> get_next_states (M_left, C_left, M_right, C_right, boat_pos)
                                 M_total C_total boat_capacity.
Proof.
  intros. split; [apply is_valid_state_swap|].
  rewrite !get_next_states_eq_spec. unfold spec_next_states.
  rewrite <- filter_fmap_mirror, <- list_fmap_compose. f_equal.
  apply list_fmap_ext. intros _ move _. simpl.
  destruct move as [i j]. destruct (String.eqb boat_pos "left"); reflexivity.
Qed.

(** X2: a crossing can be undone.  From a legal state with the boat on
    a bank, every successor has the state among its own successors. *)
Theorem crossing_reversible :
  forall (s s' : state) (M_total C_total boat_capacity : Z),
    state_ok M_total C_total s = true ->
    boat_on_bank s ->
    s' ∈ get_next_states s M_total C_total boat_capacity ->
    s ∈ get_next_states s' M_total C_total boat_capacity.
Proof.
  intros s s' M_total C_total boat_capacity Hok Hside
    (i & j & Hij & -> & _)%elem_of_get_next_states.
  apply elem_of_get_next_states. exists i, j. split; [exact Hij|].
  split; [|exact Hok].
  destruct s as [[[[ml cl] mr] cr] b]. unfold boat_on_bank in Hside. simpl in Hside.
  destruct Hside as [-> | ->]; simpl; repeat f_equal; lia.
Qed.

(** X2, an instance: the first crossing of the puzzle with two of each. *)
Lemma crossing_reversible_witness :
  (2, 2, 0, 0, "left") ∈ get_next_states (1, 1, 1, 1, "right") 2 2 2.
Proof.
  apply (crossing_reversible (2, 2, 0, 0, "left") (1, 1, 1, 1, "right") 2 2 2).
  - reflexivity.
  - left. reflexivity.
  - apply (bool_decide_unpack _). vm_compute. exact I.
Defined.

(** X3: a crossing moves the boat to the other bank with at least one
    and at most [boat_capacity] people aboard, and nobody else moves: the
    successor's boat is on the right when the state's was on the left and
    on the left otherwise, each bank changes by the people moved, and no
    state is its own successor. *)
Theorem crossing_moves_boat :
  forall (s s' : state) (M_total C_total boat_capacity : Z),
    s' ∈ get_next_states s M_total C_total boat_capacity ->
    s'.2 = (if String.eqb (s.2) "left" then "right" else "left") /\
    s' <> s /\
    1 <= Z.abs (people_left s' - people_left s) <= boat_capacity /\
    people_left s' + people_right s' = people_left s + people_right s.
Proof.
  intros s s' M_total C_total boat_capacity
    (i & j & Hij & -> & _)%elem_of_get_next_states.
  destruct s as [[[[ml cl] mr] cr] b]. simpl.
  destruct (String.eqb b "left") eqn:Hb; simpl.
  - split; [reflexivity|]. split; [|lia].
    intros [= _ _ _ _ <-]. discriminate.
  - split; [reflexivity|]. split; [|lia].
    intros [= _ _ _ _ <-]. discriminate.
Qed.

(** X3, an instance. *)
Lemma crossing_moves_boat_witness :
  (1, 1, 1, 1, "right").2 = "right" /\
  (1, 1, 1, 1, "right") <> (2, 2, 0, 0, "left") /\
  1 <= Z.abs (people_left (1, 1, 1, 1, "right") - people_left (2, 2, 0, 0, "left")) <= 2 /\
  people_left (1, 1, 1, 1, "right") + people_right (1, 1, 1, 1, "right")
  = people_left (2, 2, 0, 0, "left") + people_right (2, 2, 0, 0, "left").
Proof.
  apply (crossing_moves_boat (2, 2, 0, 0, "left") (1, 1, 1, 1, "right") 2 2 2).
  apply (bool_decide_unpack _). vm_compute. exact I.
Defined.

(** * Further properties of the search and of the solver *)

Lemma get_possible_moves_nil (boat_capacity : Z) :
  get_possible_moves boat_capacity = [] <-> boat_capacity <= 0.
Proof.
  split.
  - intros Hnil. destruct (Z.le_gt_cases boat_capacity 0) as [Hle|Hgt]; [exact Hle|].
    assert (Hin : (0, 1) ∈ get_possible_moves boat_capacity)
      by (apply elem_of_get_possible_moves; lia).
    rewrite Hnil in Hin. by apply elem_of_nil in Hin.
  - intros Hle. apply elem_of_nil_inv. intros [i j] Hin%elem_of_get_possible_moves. lia.
Qed.

(** X4: a start state that is already the goal is returned at once,
    whatever the totals and the capacity, legal state or not: the path
    is that single state and one state is counted as generated.  The
    one exception is the [OverflowError] of [heuristic] on a left bank
    of more people than a float can hold; there is none when they are at
    most [2^53]. *)
Theorem astar_search_start_is_goal :
  forall (fuel : nat) (M_total C_total : Z) (s : state) (boat_capacity : Z),
    (float_exact (people_left s) ->
     astar_search (S fuel) M_total C_total s s boat_capacity = Ret (Some [s], 1)) /\
    (astar_search (S fuel) M_total C_total s s boat_capacity = Ret (Some [s], 1) \/
     astar_search (S fuel) M_total C_total s s boat_capacity = OverflowError).
Proof.
  intros fuel M_total C_total s boat_capacity.
  pose proof (heuristic_exact s M_total C_total) as Hexact.
  destruct (heuristic_outcome s M_total C_total) as [Hh|[h Hh]].
  - split.
    + intros Hs. rewrite (Hexact Hs) in Hh. discriminate.
    + right. apply astar_search_overflow, Hh.
  - pose proof (astar_search_at_goal fuel M_total C_total s boat_capacity h Hh) as Hrun.
    split; [intros _; exact Hrun|left; exact Hrun].
Qed.

(** X4, an instance: the goal of the puzzle with three of each. *)
Lemma astar_search_start_is_goal_witness :
  astar_search 1 3 3 (0, 0, 3, 3, "right") (0, 0, 3, 3, "right") 2
  = Ret (Some [(0, 0, 3, 3, "right")], 1).
Proof.
  apply (proj1 (astar_search_start_is_goal 0 3 3 (0, 0, 3, 3, "right") 2)).
  vm_compute. discriminate.
Defined.

(** X5: a boat that holds nobody ([boat_capacity <= 0]) offers no move:
    [get_possible_moves] is empty exactly then, no state has a successor,
    and a search whose start is not the goal and holds at most [2^53]
    people on its left bank ends after one iteration with no path and
    one state generated. *)
Theorem no_capacity_no_crossing :
  forall (fuel : nat) (M_total C_total : Z) (start_state goal_state : state)
         (boat_capacity : Z),
    (get_possible_moves boat_capacity = [] <-> boat_capacity <= 0) /\
    (boat_capacity <= 0 ->
     get_next_states start_state M_total C_total boat_capacity = [] /\
     (start_state <> goal_state ->
      float_exact (people_left start_state) ->
      astar_search (S fuel) M_total C_total start_state goal_state boat_capacity
      = Ret (None, 1))).
Proof.
  intros. split; [apply get_possible_moves_nil|]. intros Hcap.
  assert (Hnil : get_next_states start_state M_total C_total boat_capacity = []).
  { rewrite get_next_states_eq_spec. unfold spec_next_states.
    rewrite (proj2 (get_possible_moves_nil boat_capacity) Hcap). reflexivity. }
  split; [exact Hnil|]. intros Hne Hstart.
  eapply astar_search_dead_end; [|exact Hnil|exact Hne].
  apply heuristic_exact, Hstart.
Qed.

(** X5, an instance: three of each and a boat for nobody. *)
Lemma no_capacity_no_crossing_witness :
  get_next_states (3, 3, 0, 0, "left") 3 3 0 = [] /\
  astar_search 1 3 3 (3, 3, 0, 0, "left") (goal_of 3 3) 0 = Ret (None, 1).
Proof.
  destruct (no_capacity_no_crossing 0 3 3 (3, 3, 0, 0, "left") (goal_of 3 3) 0)
    as [_ Hcap].
  destruct Hcap as [Hnil Hrun]; [lia|].
  split; [exact Hnil|]. apply Hrun; [discriminate|]. vm_compute. discriminate.
Defined.






(** X7: a path returned by [astar_search] never passes twice through
    the same state. *)
Theorem path_has_no_repeated_state :
  forall (fuel : nat) (M_total C_total : Z) (start_state goal_state : state)
         (boat_capacity : Z) (path : list state) (n : Z),
    astar_search fuel M_total C_total start_state goal_state boat_capacity
      = Ret (Some path, n) ->
    NoDup path.
Proof.
  intros fuel M_total C_total start_state goal_state boat_capacity path n Hrun.
  destruct (astar_search_sound _ _ _ _ _ _ _ Hrun) as (_ & _ & _ & _ & Hnd & _).
  exact Hnd.
Qed.

(** X7, an instance: two of each and a boat for two. *)
Lemma path_has_no_repeated_state_witness :
  NoDup [ (2, 2, 0, 0, "left"); (1, 1, 1, 1, "right"); (2, 1, 0, 1, "left");
          (0, 1, 2, 1, "right"); (0, 2, 2, 0, "left"); (0, 0, 2, 2, "right") ].
Proof.
  apply (path_has_no_repeated_state 20 2 2 (2, 2, 0, 0, "left") (goal_of 2 2) 2 _ 10).
  vm_compute. reflexivity.
Defined.

(** * The report *)

(** The fields of a state as a row of the report, and back. *)
Definition state_row (s : state) : row :=
  let '(Ml, Cl, Mr, Cr, bp) := s in
  {| row_M_left := Ml; row_C_left := Cl; row_M_right := Mr;
     row_C_right := Cr; row_boat_position := bp |}.

Definition row_state (r : row) : state :=
  (row_M_left r, row_C_left r, row_M_right r, row_C_right r, row_boat_position r).

Lemma row_state_row (s : state) : row_state (state_row s) = s.
Proof. destruct s as [[[[? ?] ?] ?] ?]. reflexivity. Qed.

Lemma format_path_imap (path : list state) :
  format_path path = imap (fun i s => (str i, state_row s)) path.
Proof.
  unfold format_path. apply imap_ext. intros i [[[[? ?] ?] ?] ?] _. reflexivity.
Qed.

Lemma format_path_lookup (path : list state) (i : nat) :
  format_path path !! i = (fun s => (str i, state_row s)) <$> path !! i.
Proof. rewrite format_path_imap. apply list_lookup_imap. Qed.

Lemma to_uint_nonnil (n : nat) : Nat.to_uint n <> Decimal.Nil.
Proof.
  rewrite <- (DecimalNat.Unsigned.of_to n) at 1.
  rewrite DecimalNat.Unsigned.to_of. apply DecimalFacts.unorm_nonnil.
Qed.

Lemma str_inj (i j : nat) : str i = str j -> i = j.
Proof.
  unfold str. intros Heq. apply DecimalNat.Unsigned.to_uint_inj.
  pose proof (NilZero.usu _ (to_uint_nonnil i)) as Hi.
  pose proof (NilZero.usu _ (to_uint_nonnil j)) as Hj.
  rewrite Heq in Hi. congruence.
Qed.

Lemma format_path_keys (path : list state) :
  (format_path path).*1 = str <$> seq 0 (length path).
Proof.
  apply list_eq. intros i.
  rewrite !list_lookup_fmap, format_path_lookup.
  destruct (path !! i) as [s|] eqn:Hs; simpl.
  - rewrite lookup_seq_lt by (eapply lookup_lt_Some; eauto). reflexivity.
  - rewrite lookup_seq_ge by (eapply lookup_ge_None; eauto). reflexivity.
Qed.

Lemma format_path_keys_NoDup (path : list state) : NoDup (format_path path).*1.
Proof.
  rewrite format_path_keys. apply NoDup_fmap_2_strong; [|apply NoDup_seq].
  intros i j _ _. apply str_inj.
Qed.

Lemma format_path_length (path : list state) :
  length (format_path path) = length path.
Proof. rewrite format_path_imap. apply length_imap. Qed.

Lemma format_path_back (path : list state) :
  (row_state ∘ snd) <$> format_path path = path.
Proof.
  apply list_eq. intros i. rewrite list_lookup_fmap, format_path_lookup.
  destruct (path !! i) as [s|]; simpl; [|reflexivity].
  rewrite row_state_row. reflexivity.
Qed.

(** X8: formatting a path and reading it back gives the path.  The
    report has one row per state, the keys [str(0)], [str(1)], ... are
    pairwise distinct, so that no row of the dictionary overwrites
    another, the row under [str(i)] holds the fields of the [i]-th state,
    and the rows in order give the states of the path back. *)
Theorem format_path_round_trip :
  forall path : list state,
    length (format_path path) = length path /\
    NoDup (format_path path).*1 /\
    (forall i : nat,
        (list_to_map (format_path path) : gmap string row) !! str i
        = state_row <$> path !! i) /\
    (row_state ∘ snd) <$> format_path path = path.
Proof.
  intros path. split_and!.
  - apply format_path_length.
  - apply format_path_keys_NoDup.
  - intros i. destruct (path !! i) as [s|] eqn:Hs; simpl.
    + apply elem_of_list_to_map_1; [apply format_path_keys_NoDup|].
      apply list_elem_of_lookup. exists i. rewrite format_path_lookup, Hs. reflexivity.
    + apply not_elem_of_list_to_map_1. rewrite format_path_keys.
      intros (j & Hij & Hj)%list_elem_of_fmap. apply str_inj in Hij as <-.
      apply elem_of_seq in Hj. apply lookup_ge_None in Hs. lia.
  - apply format_path_back.
Qed.

(** X9: when the solver reports a solution, its first row, under the
    key ["0"], holds the start state built from the parameters, its last
    row holds the goal [(0, 0, M_total, C_total, "right")], the rows are
    pairwise distinct, and there are at most [number_of_states] of them;
    [number_of_states] is at least 1 in every report. *)
Theorem solver_report_shape :
  forall (fuel : nat) (M_total C_total boat_capacity : Z)
         (M_left C_left M_right C_right : option Z) (boat_position : string)
         (r : report),
    solve_missionaries_cannibals fuel M_total C_total boat_capacity
      M_left C_left M_right C_right boat_position = Ret r ->
    1 <= number_of_states r /\
    forall rows : list (string * row),
      output r = Some rows ->
      rows !! 0%nat
      = Some ("0", Row (default M_total M_left) (default C_total C_left)
                       (default 0 M_right) (default 0 C_right) boat_position) /\
      last rows = Some (str (pred (length rows)), Row 0 0 M_total C_total "right") /\
      NoDup rows.*2 /\
      Z.of_nat (length rows) <= number_of_states r.
Proof.
  intros fuel M_total C_total boat_capacity M_left C_left M_right C_right
    boat_position r. unfold solve_missionaries_cannibals.
  destruct (astar_search fuel _ _ _ _ _) as [[[path|] n]| | |] eqn:Hrun;
    try discriminate; intros [= <-];
    destruct (astar_search_sound _ _ _ _ _ _ _ Hrun) as (Hpos & Hsound);
    (split; [exact Hpos|]); simpl; [|discriminate].
  intros rows [= <-]. simpl in Hsound.
  destruct Hsound as (Hhead & Hlast & _ & Hnd & Hlen).
  pose proof (format_path_length path) as Hlength.
  pose proof (format_path_back path) as Hback.
  split_and!.
  - rewrite format_path_lookup, <- head_lookup, Hhead. reflexivity.
  - rewrite last_lookup, format_path_lookup, Hlength, <- last_lookup, Hlast. reflexivity.
  - apply (NoDup_fmap_1 row_state). rewrite <- list_fmap_compose, Hback. exact Hnd.
  - rewrite Hlength. exact Hlen.
Qed.

(** X9, an instance: two of each and a boat for two. *)
Lemma solver_report_shape_witness :
  1 <= 10 /\
  exists rows : list (string * row),
    rows !! 0%nat = Some ("0", Row 2 2 0 0 "left") /\
    last rows = Some (str (pred (length rows)), Row 0 0 2 2 "right") /\
    NoDup rows.*2 /\
    Z.of_nat (length rows) <= 10.
Proof.
  assert (Hrun : solve_missionaries_cannibals 20 2 2 2 None None None None "left"
                 = Ret {| output := Some (format_path
                            [ (2, 2, 0, 0, "left"); (1, 1, 1, 1, "right");
                              (2, 1, 0, 1, "left"); (0, 1, 2, 1, "right");
                              (0, 2, 2, 0, "left"); (0, 0, 2, 2, "right") ]);
                          number_of_states := 10 |})
    by (vm_compute; reflexivity).
  destruct (solver_report_shape 20 2 2 2 None None None None "left" _ Hrun)
    as [Hpos Hrows].
  split; [exact Hpos|]. eexists. apply Hrows. reflexivity.
Defined.

(** * The request handlers of [app.py] *)

(** The solver modules of the second puzzle; they are not part of the
    sources at hand, so a call is recorded, not evaluated. *)
Inductive jealous_module : Type :=
| jealous_husbands_bfs
| jealous_husbands_dfs
| jealous_husbands_a_star.

(** A call [module.solve_jealous_husbands(N=num_of_couples)]. *)
Record jealous_call : Type := JealousCall {
  jealous_callee : jealous_module;
  jealous_N : json
}.

(** The handler [jealous_husband]. *)
Definition jealous_husband (parameters : gmap string json)
    : outcome (option jealous_call) :=
  num_of_couples ← getitem parameters "num_of_couples";
  solver ← getitem parameters "solver";
  if decide (solver = JStr "bfs") then
    Ret (Some {| jealous_callee := jealous_husbands_bfs; jealous_N := num_of_couples |})
  else if decide (solver = JStr "dfs") then
    Ret (Some {| jealous_callee := jealous_husbands_dfs; jealous_N := num_of_couples |})
  else if decide (solver = JStr "a_star") then
    Ret (Some {| jealous_callee := jealous_husbands_a_star; jealous_N := num_of_couples |})
  else Ret None.

(** The parameters of [solve_missionaries_cannibals] with their default
    values, in the order of the [def]. *)
Definition solve_signature : list (string * json) :=
  [ ("M_total", JInt 3); ("C_total", JInt 3); ("boat_capacity", JInt 2);
    ("M_left", JNull); ("C_left", JNull); ("M_right", JNull); ("C_right", JNull);
    ("boat_position", JStr "left") ].

(** Python's binding of positional arguments: the parameters take the
    arguments in order, those left over take their defaults; more
    arguments than parameters is a [TypeError], here [None]. *)
Fixpoint bind_positional (signature : list (string * json)) (args : list json)
    : option (list (string * json)) :=
  match signature, args with
  | [], [] => Some []
  | [], _ :: _ => None
  | (name, default) :: signature', [] =>
      cons (name, default) <$> bind_positional signature' []
  | (name, _) :: signature', arg :: args' =>
      cons (name, arg) <$> bind_positional signature' args'
  end.

(** The fields a request of the first puzzle must hold. *)
Definition request_keys : list string :=
  [ "M_total"; "C_total"; "M_left"; "C_left"; "M_right"; "C_right";
    "boat_position"; "solver" ].

Ltac in_list :=
  solve [repeat (first [apply list_elem_of_here | apply list_elem_of_further])].

(** The [if] chain of the handler on the selector. *)
Definition dispatch (solver : json) (args : list json) : outcome (option solver_call) :=
  if decide (solver = JStr "bfs") then
    Ret (Some {| callee := missionary_cannibal_solver_bfs; arguments := args |})
  else if decide (solver = JStr "dfs") then
    Ret (Some {| callee := missionary_cannibal_solver_dfs; arguments := args |})
  else if decide (solver = JStr "a_star") then
    Ret (Some {| callee := missionary_cannibal_a_star; arguments := args |})
  else Ret None.

Ltac absent_key key :=
  left; split; [reflexivity|]; exists key; split; [in_list|assumption].

(** The handler on a request: a field is absent and the handler fails,
    or the eight fields are there and the selector decides. *)
Lemma missionary_cannibal_eval (parameters : gmap string json) :
  (missionary_cannibal parameters = KeyError /\
   exists key, key ∈ request_keys /\ parameters !! key = None) \/
  (exists M_total C_total M_left C_left M_right C_right boat_position solver : json,
      [ parameters !! "M_total"; parameters !! "C_total"; parameters !! "M_left";
        parameters !! "C_left"; parameters !! "M_right"; parameters !! "C_right";
        parameters !! "boat_position"; parameters !! "solver" ]
      = Some <$> [ M_total; C_total; M_left; C_left; M_right; C_right;
                   boat_position; solver ] /\
      missionary_cannibal parameters
      = dispatch solver [ M_total; C_total; M_left; C_left; M_right; C_right;
                          boat_position ]).
Proof.
  unfold missionary_cannibal, getitem.
  destruct (parameters !! "M_total") as [v1|] eqn:H1; [|absent_key "M_total"].
  destruct (parameters !! "C_total") as [v2|] eqn:H2; [|absent_key "C_total"].
  destruct (parameters !! "M_left") as [v3|] eqn:H3; [|absent_key "M_left"].
  destruct (parameters !! "C_left") as [v4|] eqn:H4; [|absent_key "C_left"].
  destruct (parameters !! "M_right") as [v5|] eqn:H5; [|absent_key "M_right"].
  destruct (parameters !! "C_right") as [v6|] eqn:H6; [|absent_key "C_right"].
  destruct (parameters !! "boat_position") as [v7|] eqn:H7;
    [|absent_key "boat_position"].
  destruct (parameters !! "solver") as [v8|] eqn:H8; [|absent_key "solver"].
  right. exists v1, v2, v3, v4, v5, v6, v7, v8. split; reflexivity.
Qed.

Lemma request_complete (parameters : gmap string json) (values : list json) :
  [ parameters !! "M_total"; parameters !! "C_total"; parameters !! "M_left";
    parameters !! "C_left"; parameters !! "M_right"; parameters !! "C_right";
    parameters !! "boat_position"; parameters !! "solver" ]
  = Some <$> values ->
  forall key, key ∈ request_keys -> is_Some (parameters !! key).
Proof.
  destruct values as [|v1 [|v2 [|v3 [|v4 [|v5 [|v6 [|v7 [|v8 [|]]]]]]]]];
    try discriminate.
  intros [= H1 H2 H3 H4 H5 H6 H7 H8] key Hkey. unfold request_keys in Hkey.
  repeat (apply elem_of_cons in Hkey as [->|Hkey]; [eauto|]).
  by apply elem_of_nil in Hkey.
Qed.

(** X10: the handler of the first puzzle reads its eight fields before
    it looks at the selector.  It fails with [KeyError] exactly when one
    of them is absent, whatever the selector; it returns [None] exactly
    when all are present and the selector is none of ["bfs"], ["dfs"],
    ["a_star"]; and a call it makes goes to the module the selector
    names with the seven other fields as positional arguments, in the
    order [M_total, C_total, M_left, C_left, M_right, C_right,
    boat_position]. *)
Theorem missionary_cannibal_outcomes :
  forall parameters : gmap string json,
    (missionary_cannibal parameters = KeyError <->
     exists key, key ∈ request_keys /\ parameters !! key = None) /\
    (missionary_cannibal parameters = Ret None <->
     (forall key, key ∈ request_keys -> is_Some (parameters !! key)) /\
     parameters !! "solver" <> Some (JStr "bfs") /\
     parameters !! "solver" <> Some (JStr "dfs") /\
     parameters !! "solver" <> Some (JStr "a_star")) /\
    (forall call : solver_call,
        missionary_cannibal parameters = Ret (Some call) ->
        (exists name : string,
            parameters !! "solver" = Some (JStr name) /\
            (name, callee call) ∈ [ ("bfs", missionary_cannibal_solver_bfs);
                                    ("dfs", missionary_cannibal_solver_dfs);
                                    ("a_star", missionary_cannibal_a_star) ]) /\
        Some <$> arguments call
        = (fun key => parameters !! key)
            <$> [ "M_total"; "C_total"; "M_left"; "C_left"; "M_right"; "C_right";
                  "boat_position" ]).
Proof.
  intros parameters.
  destruct (missionary_cannibal_eval parameters)
    as [[Herr Hmissing]
       |(v1 & v2 & v3 & v4 & v5 & v6 & v7 & v8 & Hfields & Hrun)].
  - rewrite Herr. split_and!.
    + split; [intros _; exact Hmissing|reflexivity].
    + split; [discriminate|]. intros (Hall & _).
      destruct Hmissing as (key & Hkey & Hnone).
      destruct (Hall key Hkey) as [? Hsome]. congruence.
    + discriminate.
  - pose proof (request_complete parameters _ Hfields) as Hall.
    injection Hfields as H1 H2 H3 H4 H5 H6 H7 H8.
    rewrite Hrun, H8. unfold dispatch. cbn [fmap list_fmap].
    rewrite H1, H2, H3, H4, H5, H6, H7.
    assert (Habsent : ~ exists key, key ∈ request_keys /\ parameters !! key = None).
    { intros (key & Hkey & Hnone). destruct (Hall key Hkey) as [? Hsome]. congruence. }
    destruct (decide (v8 = JStr "bfs")) as [->|Hb];
      [|destruct (decide (v8 = JStr "dfs")) as [->|Hd];
        [|destruct (decide (v8 = JStr "a_star")) as [->|Ha]]].
    1-3: split_and!;
      [ split; [discriminate|intros Hex; destruct (Habsent Hex)]
      | split; [discriminate|intros (_ & Hb' & Hd' & Ha'); congruence]
      | intros call [= <-]; simpl; split; [|reflexivity];
        eexists; split; [reflexivity|]; in_list ].
    split_and!.
    + split; [discriminate|intros Hex; destruct (Habsent Hex)].
    + split; [intros _|reflexivity]. split; [exact Hall|].
      split_and!; congruence.
    + discriminate.
Qed.

(** X11: the handler of the second puzzle fails with [KeyError] exactly
    when ["num_of_couples"] or ["solver"] is absent, returns [None]
    exactly when both are present and the selector is none of the three,
    and otherwise calls the module the selector names with the number of
    couples of the request. *)
Theorem jealous_husband_outcomes :
  forall parameters : gmap string json,
    (jealous_husband parameters = KeyError <->
     parameters !! "num_of_couples" = None \/ parameters !! "solver" = None) /\
    (jealous_husband parameters = Ret None <->
     is_Some (parameters !! "num_of_couples") /\ is_Some (parameters !! "solver") /\
     parameters !! "solver" <> Some (JStr "bfs") /\
     parameters !! "solver" <> Some (JStr "dfs") /\
     parameters !! "solver" <> Some (JStr "a_star")) /\
    (forall call : jealous_call,
        jealous_husband parameters = Ret (Some call) ->
        parameters !! "num_of_couples" = Some (jealous_N call) /\
        exists name : string,
          parameters !! "solver" = Some (JStr name) /\
          (name, jealous_callee call) ∈ [ ("bfs", jealous_husbands_bfs);
                                          ("dfs", jealous_husbands_dfs);
                                          ("a_star", jealous_husbands_a_star) ]).
Proof.
  intros parameters. unfold jealous_husband, getitem.
  destruct (parameters !! "num_of_couples") as [n|] eqn:Hn.
  2: { split_and!; [split; [auto|reflexivity]| |discriminate].
       split; [discriminate|]. intros ([? [=]] & _). }
  destruct (parameters !! "solver") as [v|] eqn:Hv.
  2: { split_and!; [split; [auto|reflexivity]| |discriminate].
       split; [discriminate|]. intros (_ & [? [=]] & _). }
  cbn [mbind outcome_bind].
  destruct (decide (v = JStr "bfs")) as [->|Hb];
    [|destruct (decide (v = JStr "dfs")) as [->|Hd];
      [|destruct (decide (v = JStr "a_star")) as [->|Ha]]].
  1-3: split_and!;
    [ split; [discriminate|intros [[=]|[=]]]
    | split; [discriminate|intros (_ & _ & Hb' & Hd' & Ha'); congruence]
    | intros call [= <-]; simpl; split; [reflexivity|];
      eexists; split; [reflexivity|]; in_list ].
  split_and!.
  - split; [discriminate|intros [[=]|[=]]].
  - split; [intros _|reflexivity]. split_and!; eauto; congruence.
  - discriminate.
Qed.

(** X12: the call the handler makes for the selector ["a_star"] passes
    seven positional arguments to a solver whose third parameter is
    [boat_capacity].  Bound to the solver's signature, the request's
    [M_left] becomes the boat capacity, its [C_left], [M_right] and
    [C_right] become [M_left], [C_left] and [M_right], its
    [boat_position] becomes [C_right], and the solver's own
    [boat_position] keeps its default ["left"]. *)
Theorem a_star_call_binding :
  forall (parameters : gmap string json) (call : solver_call),
    missionary_cannibal parameters = Ret (Some call) ->
    callee call = missionary_cannibal_a_star ->
    exists M_total C_total M_left C_left M_right C_right boat_position : json,
      parameters !! "M_total" = Some M_total /\
      parameters !! "C_total" = Some C_total /\
      parameters !! "M_left" = Some M_left /\
      parameters !! "C_left" = Some C_left /\
      parameters !! "M_right" = Some M_right /\
      parameters !! "C_right" = Some C_right /\
      parameters !! "boat_position" = Some boat_position /\
      bind_positional solve_signature (arguments call)
      = Some [ ("M_total", M_total); ("C_total", C_total);
               ("boat_capacity", M_left);
               ("M_left", C_left); ("C_left", M_right); ("M_right", C_right);
               ("C_right", boat_position);
               ("boat_position", JStr "left") ].
Proof.
  intros parameters call Hcall Hcallee.
  destruct (missionary_cannibal_eval parameters)
    as [[Herr _]|(v1 & v2 & v3 & v4 & v5 & v6 & v7 & v8 & Hfields & Hrun)];
    [congruence|].
  injection Hfields as H1 H2 H3 H4 H5 H6 H7 H8.
  exists v1, v2, v3, v4, v5, v6, v7. split_and!; try assumption.
  rewrite Hrun in Hcall. unfold dispatch in Hcall.
  repeat case_decide; try discriminate Hcall; injection Hcall as Hc; subst call;
    try discriminate Hcallee; reflexivity.
Qed.

(** X12, an instance: the request of the usual puzzle. *)
Lemma a_star_call_binding_witness :
  exists call : solver_call,
    missionary_cannibal
      (list_to_map [ ("M_total", JInt 3); ("C_total", JInt 3); ("M_left", JInt 3);
                     ("C_left", JInt 3); ("M_right", JInt 0); ("C_right", JInt 0);
                     ("boat_position", JStr "left"); ("solver", JStr "a_star") ])
    = Ret (Some call) /\
    bind_positional solve_signature (arguments call)
    = Some [ ("M_total", JInt 3); ("C_total", JInt 3); ("boat_capacity", JInt 3);
             ("M_left", JInt 3); ("C_left", JInt 0); ("M_right", JInt 0);
             ("C_right", JStr "left"); ("boat_position", JStr "left") ].
Proof.
  set (parameters := list_to_map
         [ ("M_total", JInt 3); ("C_total", JInt 3); ("M_left", JInt 3);
           ("C_left", JInt 3); ("M_right", JInt 0); ("C_right", JInt 0);
           ("boat_position", JStr "left"); ("solver", JStr "a_star") ]
         : gmap string json).
  set (call := {| callee := missionary_cannibal_a_star;
                  arguments := [JInt 3; JInt 3; JInt 3; JInt 3; JInt 0; JInt 0;
                                JStr "left"] |}).
  assert (Hcall : missionary_cannibal parameters = Ret (Some call))
    by (vm_compute; reflexivity).
  exists call. split; [exact Hcall|].
  destruct (a_star_call_binding parameters call Hcall eq_refl)
    as (v1 & v2 & v3 & v4 & v5 & v6 & v7 & H1 & H2 & H3 & H4 & H5 & H6 & H7 & Hbind).
  vm_compute in H1, H2, H3, H4, H5, H6, H7.
  injection H1 as <-. injection H2 as <-. injection H3 as <-. injection H4 as <-.
  injection H5 as <-. injection H6 as <-. injection H7 as <-.
  exact Hbind.
Defined.

(** * Completeness of the search *)

Section Completeness.
Context (M_total C_total boat_capacity : Z) (start_state goal_state : state).

Local Abbreviation next s := (get_next_states s M_total C_total boat_capacity).
Local Abbreviation loop_step := (search_step M_total C_total goal_state boat_capacity).

(** Every state with a recorded cost is in [V] or waits in the heap. *)
Definition frontier_covers (V : gset state) (st : search_state) : Prop :=
  forall x, is_Some (g_cost st !! x) ->
            x ∈ V \/ exists f g, (f, g, x) ∈ open_heap st.

(** What the iterations that go on preserve: the states met so far are
    visited or pending, the successors of a visited state have all been
    met, and the goal has not been visited. *)
Record explored (st : search_state) : Prop := Explored {
  ex_frontier : frontier_covers (visited st) st;
  ex_closed : forall x y, x ∈ visited st -> y ∈ next x -> is_Some (g_cost st !! y);
  ex_goal : goal_state ∉ visited st;
  ex_start : is_Some (g_cost st !! start_state)
}.

Lemma push_met (st : search_state) (V : gset state) (e : entry)
    (par : gmap state (option state)) (n : Z) :
  frontier_covers V st ->
  let st' := {| open_heap := heappush (open_heap st) e;
                g_cost := <[e.2 := e.1.2]> (g_cost st);
                parent := par; visited := visited st; num_generated := n |} in
  frontier_covers V st' /\
  (forall x, is_Some (g_cost st !! x) -> is_Some (g_cost st' !! x)) /\
  is_Some (g_cost st' !! e.2).
Proof.
  intros Hcov st'. subst st'. unfold frontier_covers in *.
  cbn [g_cost open_heap]. unfold heappush. split_and!.
  - intros x. rewrite lookup_insert. case_decide as Hx.
    + intros _. right. destruct e as [[f g] y]. simpl in Hx. subst x.
      exists f, g. apply elem_of_app. right. apply list_elem_of_here.
    + intros [H|(f & g & H)]%Hcov; [left; exact H|right].
      exists f, g. apply elem_of_app. left. exact H.
  - intros x Hx. rewrite lookup_insert. case_decide; eauto.
  - rewrite lookup_insert_eq. eauto.
Qed.

Lemma relax_met (g : Z) (current : state) (st : search_state) (nxt : state)
    (st' : search_state) (V : gset state) :
  frontier_covers V st ->
  relax M_total C_total g current st nxt = Ret st' ->
  frontier_covers V st' /\
  (forall x, is_Some (g_cost st !! x) -> is_Some (g_cost st' !! x)) /\
  is_Some (g_cost st' !! nxt).
Proof.
  intros Hcov [[Hupd ->]|(_ & h & _ & ->)]%relax_Ret.
  - split; [exact Hcov|]. split; [auto|].
    destruct (g_cost st !! nxt); [eauto|discriminate].
  - apply (push_met st V (g + 1 + h, g + 1, nxt) _ _ Hcov).
Qed.

Lemma relax_all_met (g : Z) (current : state) (nexts : list state)
    (st st' : search_state) (V : gset state) :
  frontier_covers V st ->
  for_each (relax M_total C_total g current) nexts st = Ret st' ->
  frontier_covers V st' /\
  (forall x, is_Some (g_cost st !! x) -> is_Some (g_cost st' !! x)) /\
  (forall y, y ∈ nexts -> is_Some (g_cost st' !! y)).
Proof.
  revert st. induction nexts as [|nxt nexts IH]; intros st Hcov Hrun.
  - injection Hrun as <-. split; [exact Hcov|]. split; [auto|].
    intros y Hy. by apply elem_of_nil in Hy.
  - apply for_each_cons in Hrun as (st1 & Hrelax & Hrun).
    destruct (relax_met g current st nxt st1 V Hcov Hrelax) as (Hcov' & Hmono & Hnxt).
    destruct (IH _ Hcov' Hrun) as (Hcov'' & Hmono' & Hall).
    split; [exact Hcov''|]. split; [auto|].
    intros y [->|Hy]%elem_of_cons; auto.
Qed.

Lemma initial_state_explored (st0 : search_state) :
  initial_state M_total C_total start_state = Ret st0 -> explored st0.
Proof.
  intros (h & _ & ->)%initial_state_Ret. split; unfold frontier_covers;
    cbn [g_cost open_heap visited].
  - intros x [g [-> _]%lookup_singleton_Some]. right.
    eexists _, _. apply list_elem_of_here.
  - intros x y Hx. by apply not_elem_of_empty in Hx.
  - apply not_elem_of_empty.
  - rewrite lookup_singleton_eq. eauto.
Qed.

Lemma step_continue_explored (st st' : search_state) :
  explored st -> loop_step st = Ret (Continue st') -> explored st'.
Proof.
  intros [Hcov Hclosed Hgoal Hstart]
    (f & g & current & rest & Hpop & Hcases)%step_continue_cases.
  apply heappop_spec in Hpop as [Hperm _].
  assert (Hrest : forall f' g' x, (f', g', x) ∈ open_heap st ->
                    x = current \/ (f', g', x) ∈ rest).
  { intros f' g' x Hin. rewrite Hperm in Hin.
    apply elem_of_cons in Hin as [[= _ _ ->]|Hin]; auto. }
  destruct Hcases as [[Hvis ->]|(Hvis & Hne & Hexp)].
  - split; cbn [g_cost open_heap visited]; auto.
    intros x [H|(f' & g' & H)]%Hcov; [left; exact H|].
    destruct (Hrest _ _ _ H) as [->|H']; [left; exact Hvis|right; eauto].
  - unfold expand in Hexp.
    destruct (relax_all_frontier M_total C_total g current _ _ _ Hexp) as [Hv _].
    apply (relax_all_met g current _ _ _ ({[current]} ∪ visited st)) in Hexp
      as (Hcov' & Hmono & Hall).
    2: { intros x [H|(f' & g' & H)]%Hcov; cbn [open_heap].
         - left. apply elem_of_union_r, H.
         - destruct (Hrest _ _ _ H) as [->|H'];
             [left; apply elem_of_union_l, elem_of_singleton; reflexivity
             |right; eauto]. }
    split; rewrite ?Hv; cbn [visited].
    + exact Hcov'.
    + intros x y [->%elem_of_singleton|Hx]%elem_of_union Hy.
      * apply Hall, Hy.
      * apply Hmono. cbn [g_cost]. eapply Hclosed; eauto.
    + intros [->%elem_of_singleton|H]%elem_of_union; [congruence|auto].
    + apply Hmono, Hstart.
Qed.

Lemma exhausted_unreachable (st : search_state) :
  explored st -> open_heap st = [] ->
  forall k x t, moves_to M_total C_total boat_capacity k x t ->
                t = goal_state -> is_Some (g_cost st !! x) -> False.
Proof.
  intros [Hcov Hclosed Hgoal Hstart] Hheap k x t Hmoves.
  assert (Hvisited : forall z, is_Some (g_cost st !! z) -> z ∈ visited st).
  { intros z [H|(f & g & H)]%Hcov; [exact H|].
    rewrite Hheap in H. by apply elem_of_nil in H. }
  induction Hmoves as [s|n s s' t Hstep Hmoves IH]; intros -> Hs.
  - apply Hgoal, Hvisited, Hs.
  - apply IH; [reflexivity|]. eapply Hclosed; [apply Hvisited, Hs|exact Hstep].
Qed.

Lemma search_loop_complete (fuel : nat) (st : search_state) (n : Z) :
  explored st ->
  search_loop fuel M_total C_total goal_state boat_capacity st = Ret (None, n) ->
  forall k, ~ moves_to M_total C_total boat_capacity k start_state goal_state.
Proof.
  revert st. induction fuel as [|fuel IH]; intros st Hex;
    rewrite search_loop_unfold;
    destruct (loop_step st) as [[|st'|current st1]| | |] eqn:Hstep; try discriminate.
  1, 2: intros _ k Hmoves; apply step_exhausted in Hstep;
    exact (exhausted_unreachable st Hex Hstep k _ _ Hmoves eq_refl (ex_start _ Hex)).
  - apply IH. eapply step_continue_explored; eauto.
  - destruct (reconstruct (S fuel) (parent st1) (Some current) []); discriminate.
Qed.

End Completeness.

Lemma path_moves (M_total C_total boat_capacity : Z) (path : list state) (s t : state) :
  head path = Some s -> last path = Some t ->
  (forall i a b, path !! i = Some a -> path !! S i = Some b ->
                 b ∈ get_next_states a M_total C_total boat_capacity) ->
  moves_to M_total C_total boat_capacity (pred (length path)) s t.
Proof.
  revert s. induction path as [|x path IH]; intros s; [discriminate|].
  intros [= ->] Hlast Hlink. destruct path as [|y path].
  - injection Hlast as <-. apply moves_here.
  - apply (moves_next _ _ _ _ _ y).
    + apply (Hlink 0%nat); reflexivity.
    + apply IH; [reflexivity|exact Hlast|].
      intros i a b. apply (Hlink (S i)).
Qed.

(** X13: the search is sound and complete.  When [astar_search] returns
    a path of [n + 1] states, [n] legal crossings lead from the start to
    the goal; when it returns no path, no sequence of legal crossings, of
    any length, leads from the start to the goal. *)
Theorem search_decides_reachability :
  forall (fuel : nat) (M_total C_total : Z) (start_state goal_state : state)
         (boat_capacity : Z) (r : option (list state) * Z),
    astar_search fuel M_total C_total start_state goal_state boat_capacity = Ret r ->
    match r.1 with
    | Some path =>
        moves_to M_total C_total boat_capacity (pred (length path))
                 start_state goal_state
    | None =>
        forall k : nat,
          ~ moves_to M_total C_total boat_capacity k start_state goal_state
    end.
Proof.
  intros fuel M_total C_total start_state goal_state boat_capacity [[path|] n] Hrun;
    simpl.
  - destruct (astar_search_sound _ _ _ _ _ _ _ Hrun) as (_ & Hhead & Hlast & Hlink & _).
    apply path_moves; assumption.
  - apply astar_search_Ret in Hrun as (st0 & Hinit & Hrun).
    eapply search_loop_complete; [eapply initial_state_explored, Hinit|exact Hrun].
Qed.

(** X13, two instances: the six states returned for two of each and a
    boat for two are five crossings; with three of each and a boat for
    one the search returns no path, so seven crossings, say, do not solve
    that puzzle. *)
Lemma search_decides_reachability_witness :
  moves_to 2 2 2 5 (2, 2, 0, 0, "left") (goal_of 2 2) /\
  ~ moves_to 3 3 1 7 (3, 3, 0, 0, "left") (goal_of 3 3).
Proof.
  split.
  - apply (search_decides_reachability 20 2 2 (2, 2, 0, 0, "left") (goal_of 2 2) 2
             (Some [ (2, 2, 0, 0, "left"); (1, 1, 1, 1, "right"); (2, 1, 0, 1, "left");
                     (0, 1, 2, 1, "right"); (0, 2, 2, 0, "left");
                     (0, 0, 2, 2, "right") ], 10)).
    vm_compute. reflexivity.
  - apply (search_decides_reachability 5 3 3 (3, 3, 0, 0, "left") (goal_of 3 3) 1
             (None, 2)).
    vm_compute. reflexivity.
Defined.

(** * Optimality of the search for a boat of capacity at most two *)

Lemma moves_to_snoc (M_total C_total boat_capacity : Z) (k : nat) (a x y : state) :
  moves_to M_total C_total boat_capacity k a x ->
  y ∈ get_next_states x M_total C_total boat_capacity ->
  moves_to M_total C_total boat_capacity (S k) a y.
Proof.
  induction 1 as [s|n s s' t Hstep _ IH]; intros Hy.
  - eapply moves_next; [exact Hy|apply moves_here].
  - eapply moves_next; [exact Hstep|apply IH, Hy].
Qed.

Section Optimality.
Context (M_total C_total boat_capacity : Z) (start_state goal_state : state).
Context (Hcap : boat_capacity <= 2).
Context (Htotal : M_total + C_total <= 2 ^ 53).
Context (Hstart : float_exact (people_left start_state)).

Local Abbreviation next s := (get_next_states s M_total C_total boat_capacity).
Local Abbreviation h s := (ceil_half (people_left s)).
Local Abbreviation walk k x :=
  (moves_to M_total C_total boat_capacity k start_state x).
Local Abbreviation inv := (invariant M_total C_total boat_capacity start_state).

(** The heuristic is consistent: it drops by at most one per crossing. *)
Lemma heuristic_consistent (k : nat) (a x : state) :
  moves_to M_total C_total boat_capacity k a x -> h a <= Z.of_nat k + h x.
Proof.
  induction 1 as [s|n s s' t Hstep _ IH]; [lia|].
  apply crossing_people in Hstep as [Hpeople _].
  pose proof (ceil_half_bounds (people_left s)).
  pose proof (ceil_half_bounds (people_left s')). lia.
Qed.

(** Within the exact range of the floats the priority of an entry is its
    cost plus the ceiling of half the people on the left bank. *)
Lemma heap_value (st : search_state) (f g : Z) (x : state) :
  inv st -> (f, g, x) ∈ open_heap st -> f = g + h x.
Proof.
  intros Hinv Hin.
  destruct (inv_heap _ _ _ _ _ Hinv f g x Hin) as (Hf & Hx & _).
  rewrite heuristic_exact in Hf.
  - injection Hf as Hf. lia.
  - destruct Hx as [->|[p Hp]]; [exact Hstart|].
    eapply successor_float_exact; eauto.
Qed.

(** The recorded costs are lengths of sequences of crossings from the
    start; a state not yet visited waits in the heap with its recorded
    cost; the states of [W] have been expanded; the cost of a visited
    state is the least number of crossings that reach it. *)
Record optimal_on (W : gset state) (st : search_state) : Prop := OptimalOn {
  op_sub : W ⊆ visited st;
  op_entry : forall x g0, g_cost st !! x = Some g0 -> x ∉ visited st ->
    (g0 + h x, g0, x) ∈ open_heap st;
  op_closed : forall v y gv, v ∈ W -> y ∈ next v -> g_cost st !! v = Some gv ->
    exists gy, g_cost st !! y = Some gy /\ gy <= gv + 1;
  op_visited : forall v, v ∈ visited st ->
    exists gv, g_cost st !! v = Some gv /\ forall k, walk k v -> gv <= Z.of_nat k;
  op_walk : forall x g0, g_cost st !! x = Some g0 ->
    0 <= g0 /\ walk (Z.to_nat g0) x;
  op_goal : goal_state ∉ visited st
}.

Lemma initial_state_optimal (st0 : search_state) :
  initial_state M_total C_total start_state = Ret st0 -> optimal_on ∅ st0.
Proof.
  intros (start_h & Hh & ->)%initial_state_Ret.
  rewrite (heuristic_exact _ _ _ Hstart) in Hh. injection Hh as <-.
  split; cbn [g_cost open_heap visited].
  - reflexivity.
  - intros x g0 [-> <-]%lookup_singleton_Some _. apply list_elem_of_here.
  - intros v y gv Hv. by apply not_elem_of_empty in Hv.
  - intros v Hv. by apply not_elem_of_empty in Hv.
  - intros x g0 [-> <-]%lookup_singleton_Some. split; [lia|apply moves_here].
  - apply not_elem_of_empty.
Qed.

(** Along a sequence of crossings towards a state not yet visited, some
    state waits in the heap with a priority no larger than the cost and
    the heuristic at the end of the sequence. *)
Lemma pending_on_walk (st : search_state) :
  optimal_on (visited st) st ->
  forall k a x, moves_to M_total C_total boat_capacity k a x ->
    (x ∉ visited st) ->
    forall ga, g_cost st !! a = Some ga ->
      exists z gz, (z ∉ visited st) /\ g_cost st !! z = Some gz /\
                   gz + (h z) <= ga + Z.of_nat k + (h x).
Proof.
  intros Hopt k a x Hmoves.
  induction Hmoves as [s|n s s' t Hstep Hmoves IH]; intros Hx ga Hga.
  - exists s, ga. split; [exact Hx|]. split; [exact Hga|lia].
  - destruct (decide (s ∈ visited st)) as [Hs|Hs].
    + destruct (op_closed _ _ Hopt s s' ga Hs Hstep Hga) as (gy & Hgy & Hle).
      destruct (IH Hx gy Hgy) as (z & gz & Hz & Hgz & Hbound).
      exists z, gz. split; [exact Hz|]. split; [exact Hgz|lia].
    + exists s, ga. split; [exact Hs|]. split; [exact Hga|].
      pose proof (heuristic_consistent (S n) s t
                    (moves_next _ _ _ _ _ _ _ Hstep Hmoves)). lia.
Qed.

(** The entry popped for a state not yet visited carries its recorded
    cost, and no sequence of crossings from the start reaches the state
    in fewer crossings. *)
Lemma popped_cost_least (st : search_state) (f g : Z) (x : state) (rest : list entry) :
  inv st -> optimal_on (visited st) st ->
  heappop (open_heap st) = Some ((f, g, x), rest) ->
  x ∉ visited st ->
  g_cost st !! x = Some g /\ forall k, walk k x -> g <= Z.of_nat k.
Proof.
  intros Hinv Hopt Hpop Hx.
  destruct (heappop_elem _ _ _ Hpop) as (Hin & _ & _).
  apply heappop_spec in Hpop as [_ Hmin].
  pose proof (heap_value st f g x Hinv Hin) as Hf.
  destruct (inv_heap _ _ _ _ _ Hinv f g x Hin) as (_ & _ & gx & Hgx & Hle).
  pose proof (op_entry _ _ Hopt x gx Hgx Hx) as Hentry.
  apply Hmin, entry_le_components in Hentry.
  assert (g = gx) as <- by lia. split; [exact Hgx|].
  intros k Hwalk.
  destruct (pending_on_walk st Hopt k start_state x Hwalk Hx 0
              (inv_cost_start _ _ _ _ _ Hinv)) as (z & gz & Hz & Hgz & Hbound).
  pose proof (op_entry _ _ Hopt z gz Hgz Hz) as Hz_entry.
  apply Hmin, entry_le_components in Hz_entry. lia.
Qed.

Lemma relax_optimal (g : Z) (current : state) (st : search_state) (nxt : state)
    (st' : search_state) (W : gset state) :
  optimal_on W st ->
  current ∈ visited st -> g_cost st !! current = Some g -> nxt ∈ next current ->
  relax M_total C_total g current st nxt = Ret st' ->
  optimal_on W st' /\
  g_cost st' !! current = Some g /\
  (exists b, g_cost st' !! nxt = Some b /\ b <= g + 1) /\
  (forall y a, g_cost st !! y = Some a ->
     exists b, g_cost st' !! y = Some b /\ b <= a).
Proof.
  intros Hopt Hcur Hg Hnxt Hrun.
  destruct (op_walk _ _ Hopt current g Hg) as [Hg0 Hwalk].
  assert (Hwalk' : walk (S (Z.to_nat g)) nxt) by (eapply moves_to_snoc; eauto).
  apply relax_Ret in Hrun as [[Hupd ->]|(Hupd & h' & Hh & ->)].
  { split; [exact Hopt|]. split; [exact Hg|]. split; [|eauto with lia].
    destruct (g_cost st !! nxt) as [c|]; [|discriminate].
    exists c. split; [reflexivity|]. apply Z.ltb_ge in Hupd. lia. }
  rewrite (heuristic_exact nxt M_total C_total) in Hh
    by (eapply successor_float_exact; eauto).
  injection Hh as <-.
  assert (Hlt : forall c, g_cost st !! nxt = Some c -> g + 1 < c).
  { intros c Hc. rewrite Hc in Hupd. apply Z.ltb_lt, Hupd. }
  assert (Hfresh : nxt ∉ visited st).
  { intros Hvis. destruct (op_visited _ _ Hopt nxt Hvis) as (gv & Hgv & Hleast).
    specialize (Hleast _ Hwalk'). specialize (Hlt gv Hgv). lia. }
  assert (Hne : nxt <> current) by (intros ->; auto).
  destruct Hopt as [Hsub Hentry Hclosed Hvisited Hwalks Hgoal].
  split; [split; cbn [g_cost open_heap visited]|].
  - exact Hsub.
  - intros x g0. rewrite lookup_insert. unfold heappush. case_decide as Hx.
    + intros [= <-] _. subst x. apply elem_of_app. right. apply list_elem_of_here.
    + intros Hx0 Hvis. apply elem_of_app. left. apply Hentry; assumption.
  - intros v y gv Hv Hy. assert (nxt <> v) by (intros ->; apply Hfresh, Hsub, Hv).
    rewrite (lookup_insert_ne _ nxt v) by done. intros Hgv.
    destruct (Hclosed v y gv Hv Hy Hgv) as (gy & Hgy & Hle).
    rewrite lookup_insert. case_decide as Hy'.
    + subst y. exists (g + 1). split; [reflexivity|]. specialize (Hlt gy Hgy). lia.
    + exists gy. auto.
  - intros v Hv. assert (nxt <> v) by (intros ->; auto).
    rewrite lookup_insert_ne by done. apply Hvisited, Hv.
  - intros x g0. rewrite lookup_insert. case_decide as Hx.
    + intros [= <-]. subst x. split; [lia|].
      replace (Z.to_nat (g + 1)) with (S (Z.to_nat g)) by lia. exact Hwalk'.
    + apply Hwalks.
  - exact Hgoal.
  - cbn [g_cost]. split; [rewrite lookup_insert_ne by done; exact Hg|].
    split; [exists (g + 1); rewrite lookup_insert_eq; split; [reflexivity|lia]|].
    intros y a Hy. rewrite lookup_insert. case_decide as Hy'.
    + subst y. exists (g + 1). split; [reflexivity|]. specialize (Hlt a Hy). lia.
    + exists a. split; [exact Hy|lia].
Qed.

Lemma relax_all_optimal (g : Z) (current : state) (nexts : list state)
    (st st' : search_state) (W : gset state) :
  (forall nxt, nxt ∈ nexts -> nxt ∈ next current) ->
  optimal_on W st ->
  current ∈ visited st -> g_cost st !! current = Some g ->
  for_each (relax M_total C_total g current) nexts st = Ret st' ->
  optimal_on W st' /\
  g_cost st' !! current = Some g /\
  (forall y, y ∈ nexts -> exists b, g_cost st' !! y = Some b /\ b <= g + 1) /\
  (forall y a, g_cost st !! y = Some a ->
     exists b, g_cost st' !! y = Some b /\ b <= a).
Proof.
  revert st. induction nexts as [|nxt nexts IH]; intros st Hsub Hopt Hcur Hg Hrun.
  - injection Hrun as <-. split; [exact Hopt|]. split; [exact Hg|].
    split; [intros y Hy; by apply elem_of_nil in Hy|eauto with lia].
  - apply for_each_cons in Hrun as (st1 & Hrelax & Hrun).
    destruct (relax_optimal g current st nxt st1 W Hopt Hcur Hg)
      as (Hopt' & Hg' & (b & Hb & Hble) & Hmono);
      [apply Hsub, list_elem_of_here|exact Hrelax|].
    destruct (IH st1) as (Hopt'' & Hg'' & Hall & Hmono').
    { intros y Hy. apply Hsub, list_elem_of_further, Hy. }
    { exact Hopt'. }
    { destruct (relax_frontier M_total C_total g current st nxt st1 Hrelax) as [-> _].
      exact Hcur. }
    { exact Hg'. }
    { exact Hrun. }
    split; [exact Hopt''|]. split; [exact Hg''|]. split.
    + intros y [->|Hy]%elem_of_cons; [|apply Hall, Hy].
      destruct (Hmono' _ _ Hb) as (b' & Hb' & Hle'). exists b'. split; [exact Hb'|lia].
    + intros y a Hy. destruct (Hmono _ _ Hy) as (b1 & Hb1 & Hle1).
      destruct (Hmono' _ _ Hb1) as (b2 & Hb2 & Hle2). exists b2. split; [exact Hb2|lia].
Qed.

Lemma step_continue_optimal (st st' : search_state) :
  inv st -> optimal_on (visited st) st ->
  search_step M_total C_total goal_state boat_capacity st = Ret (Continue st') ->
  optimal_on (visited st') st'.
Proof.
  intros Hinv Hopt (f & g & current & rest & Hpop & Hcases)%step_continue_cases.
  assert (Hrest : forall f' g' x, (f', g', x) ∈ open_heap st -> x <> current ->
                    (f', g', x) ∈ rest).
  { pose proof Hpop as [Hperm _]%heappop_spec. intros f' g' x Hin Hne.
    rewrite Hperm in Hin. apply elem_of_cons in Hin as [[= _ _ ->]|Hin]; [done|auto]. }
  destruct Hcases as [[Hvis ->]|(Hvis & Hne & Hexp)].
  - destruct Hopt as [Hsub Hentry Hclosed Hvisited Hwalks Hgoal].
    split; cbn [g_cost open_heap visited]; auto.
    intros x g0 Hx Hnot. apply Hrest; [auto|]. intros ->. auto.
  - destruct (popped_cost_least st f g current rest Hinv Hopt Hpop Hvis)
      as [Hg Hleast].
    set (st1 := {| open_heap := rest; g_cost := g_cost st; parent := parent st;
                   visited := {[current]} ∪ visited st;
                   num_generated := num_generated st |}) in *.
    assert (Hopt1 : optimal_on (visited st) st1).
    { destruct Hopt as [Hsub Hentry Hclosed Hvisited Hwalks Hgoal].
      split; cbn [g_cost open_heap visited]; auto.
      - apply union_subseteq_r.
      - intros x g0 Hx Hnot. apply Hrest.
        + apply Hentry; [exact Hx|]. intros H. apply Hnot, elem_of_union_r, H.
        + intros ->. apply Hnot, elem_of_union_l, elem_of_singleton. reflexivity.
      - intros v [->%elem_of_singleton|Hv]%elem_of_union; [eauto|auto].
      - intros [->%elem_of_singleton|H]%elem_of_union; [congruence|auto]. }
    unfold expand in Hexp.
    assert (Hcur1 : current ∈ visited st1)
      by (apply elem_of_union_l, elem_of_singleton; reflexivity).
    destruct (relax_all_optimal g current (next current) st1 st' (visited st)
                (fun nxt Hnxt => Hnxt) Hopt1 Hcur1 Hg Hexp)
      as (Hoptf & Hgf & Hall & _).
    destruct (relax_all_frontier M_total C_total g current (next current) st1 st' Hexp)
      as [Hv _].
    destruct Hoptf as [Hsub Hentry Hclosed Hvisited Hwalks Hgoal].
    rewrite Hv in Hentry, Hvisited, Hgoal.
    split; rewrite ?Hv; [reflexivity|exact Hentry| |exact Hvisited|exact Hwalks
                        |exact Hgoal].
    intros v y gv [->%elem_of_singleton|Hv']%elem_of_union Hy Hgv.
    + rewrite Hgf in Hgv. injection Hgv as <-. apply Hall, Hy.
    + eapply Hclosed; eauto.
Qed.

Lemma chain_length_cost (st : search_state) (l : list state) (x : state) :
  inv st -> is_chain (parent st) (Some x) l ->
  Z.of_nat (length l) <= cost st x + 1.
Proof.
  intros Hinv. revert x. induction l as [|y l IH]; intros x; [intros [=]|].
  intros [[= <-] (p & Hp & Hchain)]. destruct p as [p|].
  - destruct (parent_cost _ _ _ _ st x p Hinv Hp) as [_ Hcost].
    specialize (IH p Hchain). rewrite length_cons. lia.
  - apply is_chain_None in Hchain as ->.
    rewrite (inv_root _ _ _ _ _ Hinv x Hp). unfold cost.
    rewrite (inv_cost_start _ _ _ _ _ Hinv). simpl. lia.
Qed.

Lemma search_loop_shortest (fuel : nat) (st : search_state) (path : list state) (n : Z) :
  inv st -> optimal_on (visited st) st ->
  search_loop fuel M_total C_total goal_state boat_capacity st = Ret (Some path, n) ->
  forall k, walk k goal_state -> (length path <= S k)%nat.
Proof.
  revert st. induction fuel as [|fuel IH]; intros st Hinv Hopt;
    rewrite search_loop_unfold;
    destruct (search_step M_total C_total goal_state boat_capacity st)
      as [[|st'|current st1]| | |] eqn:Hstep; try discriminate.
  - apply IH; [eapply step_continue_invariant; eauto|].
    eapply step_continue_optimal; eauto.
  - destruct (reconstruct (S fuel) (parent st1) (Some current) [])
      as [p| | |] eqn:Hrec; try discriminate.
    intros [= <- <-] k Hwalk.
    destruct (step_goal_invariant _ _ _ _ _ _ _ _ Hinv Hstep) as (Hinv1 & -> & _ & _).
    apply reconstruct_chain in Hrec as (l & -> & Hchain). simpl.
    rewrite length_reverse.
    pose proof (chain_length_cost st1 l goal_state Hinv1 Hchain) as Hlen.
    apply step_goal_cases in Hstep as (f & g & rest & Hpop & Hvis & _ & Hst1).
    destruct (popped_cost_least st f g goal_state rest Hinv Hopt Hpop Hvis)
      as [Hg Hleast].
    revert Hlen. rewrite Hst1. unfold cost. cbn [g_cost].
    rewrite Hg. simpl. specialize (Hleast k Hwalk). lia.
Qed.

End Optimality.

(** X14: for a boat of capacity at most two, and when the people on
    the left bank of the start and the totals are at most [2^53], so
    that every call of [heuristic] is exact, the path [astar_search]
    returns is a shortest one: no sequence of legal crossings leads from
    the start to the goal in fewer crossings than the path has. *)
Theorem astar_path_is_shortest :
  forall (fuel : nat) (M_total C_total : Z) (start_state goal_state : state)
         (boat_capacity : Z) (path : list state) (n : Z) (k : nat),
    boat_capacity <= 2 ->
    float_exact (people_left start_state) ->
    M_total + C_total <= 2 ^ 53 ->
    astar_search fuel M_total C_total start_state goal_state boat_capacity
      = Ret (Some path, n) ->
    moves_to M_total C_total boat_capacity k start_state goal_state ->
    (pred (length path) <= k)%nat.
Proof.
  intros fuel M_total C_total start_state goal_state boat_capacity path n k
    Hcap Hstart Htotal Hrun Hmoves.
  apply astar_search_Ret in Hrun as (st0 & Hinit & Hrun).
  pose proof (initial_state_optimal M_total C_total boat_capacity start_state
                goal_state Hstart st0 Hinit) as Hopt.
  assert (Hvis : visited st0 = ∅).
  { apply initial_state_Ret in Hinit as (h & _ & ->). reflexivity. }
  rewrite <- Hvis in Hopt.
  pose proof (search_loop_shortest M_total C_total boat_capacity start_state goal_state
                Hcap Htotal Hstart fuel st0 path n
                (initial_state_invariant _ _ _ _ _ Hinit) Hopt Hrun k Hmoves).
  lia.
Qed.

(** X14, an instance: two of each and a boat for two; the path of six
    states is no longer than the five crossings of a known solution. *)
Lemma astar_path_is_shortest_witness : (pred 6 <= 5)%nat.
Proof.
  apply (astar_path_is_shortest 20 2 2 (2, 2, 0, 0, "left") (goal_of 2 2) 2
           [ (2, 2, 0, 0, "left"); (1, 1, 1, 1, "right"); (2, 1, 0, 1, "left");
             (0, 1, 2, 1, "right"); (0, 2, 2, 0, "left"); (0, 0, 2, 2, "right") ]
           10 5).
  - lia.
  - vm_compute. discriminate.
  - vm_compute. discriminate.
  - vm_compute. reflexivity.
  - crossing (2, 0, 0, 2, "right"). crossing (2, 1, 0, 1, "left").
    crossing (0, 1, 2, 1, "right"). crossing (0, 2, 2, 0, "left").
    crossing (0, 0, 2, 2, "right"). apply moves_here.
Defined.

(** X19: beyond [2^53] the rounding of the float division makes the
    heuristic overestimate, and the path returned need not be a shortest
    one.  With [2^55 + 3] missionaries and two cannibals, a boat for two
    and the boat on the right, the search returns a path of four
    crossings to a state that two crossings reach. *)
Theorem astar_search_beyond_float_range :
  astar_search 20 (2 ^ 55 + 3) 2
    (2 ^ 55 + 3, 0, 0, 2, "right") (2 ^ 55 + 1, 2, 2, 0, "right") 2
  = Ret (Some [ (2 ^ 55 + 3, 0, 0, 2, "right"); (2 ^ 55 + 3, 1, 0, 1, "left");
                (2 ^ 55 + 1, 1, 2, 1, "right"); (2 ^ 55 + 2, 2, 1, 0, "left");
                (2 ^ 55 + 1, 2, 2, 0, "right") ], 16) /\
  moves_to (2 ^ 55 + 3) 2 2 2
    (2 ^ 55 + 3, 0, 0, 2, "right") (2 ^ 55 + 1, 2, 2, 0, "right") /\
  heuristic (2 ^ 55 + 5, 0, 0, 0, "left") (2 ^ 55 + 5) 0 = Ret (2 ^ 54 + 4) /\
  heuristic (2 ^ 55 + 3, 0, 0, 0, "left") (2 ^ 55 + 5) 0 = Ret (2 ^ 54).
Proof.
  split_and!; try (vm_compute; reflexivity).
  crossing (2 ^ 55 + 3, 2, 0, 0, "left").
  crossing (2 ^ 55 + 1, 2, 2, 0, "right").
  apply moves_here.
Qed.

(** * Further properties of crossings and of the heuristic *)

(** The other bank, as [get_next_states] reads a boat position. *)
Definition other_side (boat_pos : string) : string :=
  if String.eqb boat_pos "left" then "right" else "left".

Lemma successor_boat (s s' : state) (M_total C_total boat_capacity : Z) :
  s' ∈ get_next_states s M_total C_total boat_capacity -> s'.2 = other_side (s.2).
Proof.
  intros (i & j & _ & -> & _)%elem_of_get_next_states.
  destruct s as [[[[ml cl] mr] cr] b]. unfold other_side. simpl.
  destruct (String.eqb b "left"); reflexivity.
Qed.

Lemma boat_after_moves (M_total C_total boat_capacity : Z) (k : nat) (s t : state) :
  moves_to M_total C_total boat_capacity k s t ->
  boat_on_bank s ->
  t.2 = (if Nat.even k then s.2 else other_side (s.2)).
Proof.
  induction 1 as [s|n s s' t Hstep _ IH]; intros Hside; [reflexivity|].
  destruct (crossing_people _ _ _ _ _ Hstep) as (_ & _ & _ & Hside').
  rewrite (IH Hside'), (successor_boat _ _ _ _ _ Hstep), Nat.even_succ, <- Nat.negb_even.
  unfold boat_on_bank in Hside.
  destruct Hside as [-> | ->]; destruct (Nat.even n); reflexivity.
Qed.

(** X15: the boat changes bank at every crossing, so from a state with
    the boat on the left the goal, whose boat is on the right, is only
    reached by an odd number of crossings; a solution the solver reports
    for [boat_position = "left"] therefore has an even number of rows. *)
Theorem crossings_to_goal_are_odd :
  (forall (M_total C_total boat_capacity : Z) (k : nat) (s : state),
      s.2 = "left" ->
      moves_to M_total C_total boat_capacity k s (goal_of M_total C_total) ->
      Nat.odd k = true) /\
  (forall (fuel : nat) (M_total C_total boat_capacity : Z)
          (M_left C_left M_right C_right : option Z) (r : report)
          (rows : list (string * row)),
      solve_missionaries_cannibals fuel M_total C_total boat_capacity
        M_left C_left M_right C_right "left" = Ret r ->
      output r = Some rows ->
      Nat.even (length rows) = true).
Proof.
  assert (Hodd : forall (M_total C_total boat_capacity : Z) (k : nat) (s : state),
             s.2 = "left" ->
             moves_to M_total C_total boat_capacity k s (goal_of M_total C_total) ->
             Nat.odd k = true).
  { intros M_total C_total boat_capacity k s Hs Hmoves.
    pose proof (boat_after_moves _ _ _ _ _ _ Hmoves (or_introl Hs)) as Hboat.
    rewrite Hs in Hboat. rewrite <- Nat.negb_even.
    destruct (Nat.even k); [discriminate|reflexivity]. }
  split; [exact Hodd|].
  intros fuel M_total C_total boat_capacity M_left C_left M_right C_right r rows.
  unfold solve_missionaries_cannibals.
  destruct (astar_search fuel _ _ _ _ _) as [[[path|] n]| | |] eqn:Hrun;
    try discriminate; intros [= <-]; [|discriminate].
  intros [= <-]. rewrite format_path_imap, length_imap.
  destruct (astar_search_sound _ _ _ _ _ _ _ Hrun) as (_ & Hhead & Hlast & Hlink & _).
  pose proof (path_moves _ _ _ _ _ _ Hhead Hlast Hlink) as Hmoves.
  apply (Hodd M_total C_total boat_capacity) in Hmoves; [|reflexivity].
  destruct path as [|x path]; [discriminate|].
  simpl in Hmoves. rewrite length_cons, Nat.even_succ. exact Hmoves.
Qed.

(** X15, an instance: the five crossings of the puzzle with two of
    each, and the six rows of its report. *)
Lemma crossings_to_goal_are_odd_witness :
  Nat.odd 5 = true /\ Nat.even 6 = true.
Proof.
  destruct crossings_to_goal_are_odd as [Hodd Heven]. split.
  - apply (Hodd 2 2 2 5%nat (2, 2, 0, 0, "left")); [reflexivity|].
    crossing (2, 0, 0, 2, "right"). crossing (2, 1, 0, 1, "left").
    crossing (0, 1, 2, 1, "right"). crossing (0, 2, 2, 0, "left").
    crossing (0, 0, 2, 2, "right"). apply moves_here.
  - apply (Heven 20%nat 2 2 2 None None None None
             {| output := Some (format_path
                  [ (2, 2, 0, 0, "left"); (1, 1, 1, 1, "right");
                    (2, 1, 0, 1, "left"); (0, 1, 2, 1, "right");
                    (0, 2, 2, 0, "left"); (0, 0, 2, 2, "right") ]);
                number_of_states := 10 |}
             (format_path
                  [ (2, 2, 0, 0, "left"); (1, 1, 1, 1, "right");
                    (2, 1, 0, 1, "left"); (0, 1, 2, 1, "right");
                    (0, 2, 2, 0, "left"); (0, 0, 2, 2, "right") ])).
    + vm_compute. reflexivity.
    + reflexivity.
Defined.

(** X16: for a boat of capacity at most two the heuristic is
    consistent on the states whose left bank holds at most [2^53]
    people, where it is exact: it drops by at most one at each crossing,
    and by at most [k] along [k] crossings; it is never negative on a
    state whose counts are not, and it is 0 at the goal. *)
Theorem heuristic_is_consistent :
  forall (M_total C_total boat_capacity : Z) (k : nat) (s t : state),
    boat_capacity <= 2 ->
    moves_to M_total C_total boat_capacity k s t ->
    float_exact (people_left s) ->
    float_exact (people_left t) ->
    (exists hs ht : Z,
        heuristic s M_total C_total = Ret hs /\
        heuristic t M_total C_total = Ret ht /\
        hs <= Z.of_nat k + ht /\
        (0 <= people_left s -> 0 <= hs)) /\
    heuristic (goal_of M_total C_total) M_total C_total = Ret 0.
Proof.
  intros M_total C_total boat_capacity k s t Hcap Hmoves Hs Ht. split.
  - exists (ceil_half (people_left s)), (ceil_half (people_left t)). split_and!.
    + apply heuristic_exact, Hs.
    + apply heuristic_exact, Ht.
    + apply (heuristic_consistent M_total C_total boat_capacity Hcap k s t Hmoves).
    + pose proof (ceil_half_bounds (people_left s)). lia.
  - reflexivity.
Qed.

(** X16, an instance: one crossing of the puzzle with two of each. *)
Lemma heuristic_is_consistent_witness :
  exists hs ht : Z,
    heuristic (2, 2, 0, 0, "left") 2 2 = Ret hs /\
    heuristic (1, 1, 1, 1, "right") 2 2 = Ret ht /\
    hs <= Z.of_nat 1 + ht /\
    (0 <= people_left (2, 2, 0, 0, "left") -> 0 <= hs).
Proof.
  apply (heuristic_is_consistent 2 2 2 1 (2, 2, 0, 0, "left") (1, 1, 1, 1, "right")).
  - lia.
  - crossing (1, 1, 1, 1, "right"). apply moves_here.
  - vm_compute. discriminate.
  - vm_compute. discriminate.
Defined.

(** * What [number_of_states] counts *)

Lemma relax_counts (M_total C_total g : Z) (current : state) (st : search_state)
    (nxt : state) (st' : search_state) :
  relax M_total C_total g current st nxt = Ret st' ->
  num_generated st' - Z.of_nat (length (open_heap st'))
  = num_generated st - Z.of_nat (length (open_heap st)).
Proof.
  intros [[_ ->]|(_ & h & _ & ->)]%relax_Ret; [reflexivity|].
  cbn [num_generated open_heap]. unfold heappush. rewrite length_app. simpl. lia.
Qed.

Lemma relax_all_counts (M_total C_total g : Z) (current : state) (nexts : list state)
    (st st' : search_state) :
  for_each (relax M_total C_total g current) nexts st = Ret st' ->
  num_generated st' - Z.of_nat (length (open_heap st'))
  = num_generated st - Z.of_nat (length (open_heap st)).
Proof.
  revert st. induction nexts as [|nxt nexts IH]; intros st Hrun.
  - injection Hrun as <-. reflexivity.
  - apply for_each_cons in Hrun as (st1 & Hrelax & Hrun).
    rewrite (IH st1 Hrun). eapply relax_counts, Hrelax.
Qed.

Lemma step_continue_counts (M_total C_total : Z) (goal_state : state)
    (boat_capacity : Z) (st st' : search_state) :
  search_step M_total C_total goal_state boat_capacity st = Ret (Continue st') ->
  num_generated st' - Z.of_nat (length (open_heap st'))
  = num_generated st - Z.of_nat (length (open_heap st)) + 1.
Proof.
  intros (f & g & current & rest & Hpop & Hcases)%step_continue_cases.
  apply heappop_elem in Hpop as (_ & _ & Hlen).
  destruct Hcases as [[_ ->]|(_ & _ & Hexp)].
  - cbn [num_generated open_heap]. lia.
  - unfold expand in Hexp. rewrite (relax_all_counts _ _ _ _ _ _ _ Hexp).
    cbn [num_generated open_heap]. lia.
Qed.

(** X17: [number_of_states] counts the entries pushed on the heap, the
    start included: after [k] iterations of the main loop it is [k] plus
    the number of entries still waiting.  A state pushed again with a
    better cost is counted again. *)
Theorem num_generated_counts_pushes :
  forall (M_total C_total : Z) (start_state goal_state : state) (boat_capacity : Z)
         (k : nat) (st0 st : search_state),
    initial_state M_total C_total start_state = Ret st0 ->
    nsteps (iterates M_total C_total goal_state boat_capacity) k st0 st ->
    num_generated st = Z.of_nat k + Z.of_nat (length (open_heap st)).
Proof.
  intros M_total C_total start_state goal_state boat_capacity k st0 st Hinit Hsteps.
  assert (Hgen : forall st0 st1,
             nsteps (iterates M_total C_total goal_state boat_capacity) k st0 st1 ->
             num_generated st1 - Z.of_nat (length (open_heap st1))
             = num_generated st0 - Z.of_nat (length (open_heap st0)) + Z.of_nat k).
  { clear. intros st0 st1 Hsteps.
    induction Hsteps as [|n a b c Hstep _ IH]; [lia|].
    apply step_continue_counts in Hstep. lia. }
  specialize (Hgen _ _ Hsteps).
  apply initial_state_Ret in Hinit as (h & _ & ->).
  cbn [num_generated open_heap] in Hgen. simpl in Hgen. lia.
Qed.

(** X17, an instance: after the first iteration on two of each and a
    boat for two, four entries wait and five were pushed. *)
Lemma num_generated_counts_pushes_witness :
  exists st : search_state,
    length (open_heap st) = 4%nat /\
    num_generated st = Z.of_nat 1 + Z.of_nat (length (open_heap st)).
Proof.
  assert (Hsteps : exists st0 st,
             initial_state 2 2 (2, 2, 0, 0, "left") = Ret st0 /\
             nsteps (iterates 2 2 (goal_of 2 2) 2) 1 st0 st /\
             length (open_heap st) = 4%nat).
  { eexists _, _. split; [vm_compute; reflexivity|].
    split; [iteration; apply nsteps_O|]. reflexivity. }
  destruct Hsteps as (st0 & st & Hinit & Hsteps & Hlen).
  exists st. split; [exact Hlen|].
  apply (num_generated_counts_pushes 2 2 (2, 2, 0, 0, "left") (goal_of 2 2) 2 1 st0 st
           Hinit Hsteps).
Defined.

(** * The number of moves *)

(** The moves that fill a boat of capacity [c + 1]. *)
Definition full_boat_moves (c : Z) : list (Z * Z) :=
  (fun i => (i, c + 1 - i)) <$> seqZ 0 (c + 2).

Lemma get_possible_moves_succ (c : Z) :
  0 <= c ->
  get_possible_moves (c + 1) ≡ₚ get_possible_moves c ++ full_boat_moves c.
Proof.
  intros Hc. apply NoDup_Permutation.
  - apply NoDup_get_possible_moves.
  - apply NoDup_app. split_and!.
    + apply NoDup_get_possible_moves.
    + intros [i j] Hin%elem_of_get_possible_moves
        (i' & [= -> ->] & _)%list_elem_of_fmap. lia.
    + apply NoDup_fmap_2_strong; [|apply NoDup_seqZ].
      intros i i' _ _ [= ->]. reflexivity.
  - intros [i j]. rewrite elem_of_app, !elem_of_get_possible_moves.
    unfold full_boat_moves. rewrite list_elem_of_fmap. split.
    + intros (Hi & Hj & Hij).
      destruct (decide (i + j <= c)) as [Hle|Hgt]; [left; lia|right].
      exists i. split; [f_equal; lia|]. apply elem_of_seqZ. lia.
    + intros [H|(i' & [= -> ->] & Hin%elem_of_seqZ)]; lia.
Qed.

Lemma length_get_possible_moves (n : nat) :
  2 * Z.of_nat (length (get_possible_moves (Z.of_nat n))) + 2
  = (Z.of_nat n + 1) * (Z.of_nat n + 2).
Proof.
  induction n as [|n IH].
  - change (Z.of_nat 0) with 0.
    rewrite (proj2 (get_possible_moves_nil 0)) by lia. reflexivity.
  - replace (Z.of_nat (S n)) with (Z.of_nat n + 1) by lia.
    rewrite get_possible_moves_succ by lia.
    rewrite length_app. unfold full_boat_moves. rewrite length_fmap, length_seqZ. nia.
Qed.

(** X18: a boat of capacity [c >= 0] offers [(c + 1)(c + 2)/2 - 1]
    moves, all different: 2 for one seat, 5 for two, 9 for three; a boat
    of capacity [c <= 0] offers none.  This bounds the number of
    successors of every state. *)
Theorem number_of_moves :
  forall (c : Z) (s : state) (M_total C_total : Z),
    (0 <= c ->
     2 * Z.of_nat (length (get_possible_moves c)) + 2 = (c + 1) * (c + 2)) /\
    (c <= 0 -> length (get_possible_moves c) = 0%nat) /\
    (length (get_next_states s M_total C_total c)
     <= length (get_possible_moves c))%nat.
Proof.
  intros c s M_total C_total. split_and!.
  - intros Hc. rewrite <- (Z2Nat.id c Hc) at 1 2 3. apply length_get_possible_moves.
  - intros Hc. rewrite (proj2 (get_possible_moves_nil c) Hc). reflexivity.
  - apply length_successors.
Qed.

(** X18, an instance: the five moves of a boat for two. *)
Lemma number_of_moves_witness :
  2 * Z.of_nat (length (get_possible_moves 2)) + 2 = (2 + 1) * (2 + 2) /\
  Nat.le (length (get_next_states (2, 2, 0, 0, "left") 2 2 2))
         (length (get_possible_moves 2)).
Proof.
  destruct (number_of_moves 2 (2, 2, 0, 0, "left") 2 2) as (Hcount & _ & Hsucc).
  split; [apply Hcount; lia|exact Hsucc].
Defined.
